(** * libcerf's err_fcts.c (as shipped in pnfft): dispatch logic of the
      error-function family, embedded over IEEE-754 binary64.

    The C file [src/cerf/err_fcts.c] computes erf, erfc, erfi, Dawson's
    integral and the Voigt profile from three kernels ([w_of_z],
    [im_w_of_x], [erfcx]) that live in other files.  Every function is a
    chain of guarded returns on the real and imaginary part of the
    argument.  The embedding keeps that shape:

    - a scalar [R] is a [spec_float] at precision 53 and exponent bound
      1024, and the C operators are the correctly rounded [SFadd],
      [SFmul], ... of the Standard Library;
    - a [cmplx] is the pair (real part, imaginary part);
    - the kernels, the libm functions and the product of two complex
      numbers are fields of two interfaces, [Libm] and [Kernel];
    - [goto taylor] is a value of type [flow].

    The definitions come first: the functions, then for each dispatcher
    the list of its returns with the condition under which each is
    reached.  The results follow: the dispatchers partition their
    domain; the wrappers and the axis cases; NaN arguments; [cdawson]
    is odd; [cdawson] at x = 100, where its continued-fraction value is
    compared with the asymptotic expansion in exact arithmetic.

    The second file, [src/tests/check_trafo_vs_ndft_float.c], is the
    driver that compares the fast transform with the direct one.  Of
    it the three functions that compute are embedded, over IEEE-754
    binary32: [random_number_less_than_one] and [init_random_x], which
    draw the nodes from [rand], and the loop of [compare_f], which
    finds the error that is reported.  Its other functions call MPI and
    the library. *)

From Stdlib Require Import ZArith QArith Qabs Bool Lia List.
From Stdlib Require Import Floats.SpecFloat Floats.PrimFloat Floats.FloatOps.
Import ListNotations.

Set Warnings "-inexact-float".

(* ================================================================== *)
(** ** Scalars: [R] is an IEEE double *)
(* ================================================================== *)

(** Modelled from the spec: the type [R] is declared in a header that
    is not among the sources; the spec (section 3) makes a real scalar
    an IEEE double-precision float, which may be an infinity or a NaN.
    So [R] is [spec_float] at precision 53 with exponent bound 1024. *)
Definition prec : Z := 53.
Definition emax : Z := 1024.

Definition R : Type := spec_float.

(** A literal of the C source, rounded to the nearest double. *)
Definition D (f : float) : R := Prim2SF f.
Arguments D f%_float.

(** Modelled from the spec: the macros [Inf] and [NaN] of the missing
    defs.h, read as the positive infinity and a NaN. *)
Definition Inf : R := S754_infinity false.
Definition NaN : R := S754_nan.

Definition Rmul : R -> R -> R := SFmul prec emax.
Definition Radd : R -> R -> R := SFadd prec emax.
Definition Rsub : R -> R -> R := SFsub prec emax.
Definition Rdiv : R -> R -> R := SFdiv prec emax.
Definition Ropp : R -> R := SFopp.

(** [fabs] and [isnan] of <math.h> are exact. *)
Definition pnfft_fabs : R -> R := SFabs.

Definition isnan (x : R) : bool :=
  match x with S754_nan => true | _ => false end.

Definition isinf (x : R) : bool :=
  match x with S754_infinity _ => true | _ => false end.

(** Zero or a finite non-zero number. *)
Definition isfinite (x : R) : bool :=
  match x with S754_zero _ | S754_finite _ _ _ => true | _ => false end.

Declare Scope fp_scope.
Delimit Scope fp_scope with fp.
Bind Scope fp_scope with R.

Infix "*" := Rmul : fp_scope.
Infix "+" := Radd : fp_scope.
Infix "-" := Rsub : fp_scope.
Infix "/" := Rdiv : fp_scope.
Notation "- x" := (Ropp x) : fp_scope.
(** The comparisons of C: all are false when an operand is NaN. *)
Notation "x ==? y" := (SFeqb x y) (at level 70, no associativity) : fp_scope.
Notation "x <? y" := (SFltb x y) (at level 70, no associativity) : fp_scope.
Notation "x >? y" := (SFltb y x) (at level 70, no associativity) : fp_scope.
Notation "x >=? y" := (SFleb y x) (at level 70, no associativity) : fp_scope.
Notation "x <=? y" := (SFleb x y) (at level 70, no associativity) : fp_scope.

Local Open Scope fp_scope.

(** The three constants of the file. *)
Definition spi2 : R := D 0.8862269254527580136490837416705725913990.
Definition s2pi : R := D 2.5066282746310005024157652848110.
Definition pi : R := D 3.141592653589793238462643383279503.

(* ================================================================== *)
(** ** Complex values and the mixed operators of C99 *)
(* ================================================================== *)

(** Modelled from the spec: [cmplx], [CNUM], [pnfft_creal] and
    [pnfft_cimag] come from the missing headers; the spec (section 3)
    makes a complex value the ordered pair of its real and imaginary
    part, with construction and extraction as primitives. *)
Definition cmplx : Type := (R * R)%type.

Definition CNUM (a b : R) : cmplx := (a, b).
Definition pnfft_creal (z : cmplx) : R := fst z.
Definition pnfft_cimag (z : cmplx) : R := snd z.

(** A real returned from a function of type [cmplx]. *)
Definition CofR (r : R) : cmplx := (r, D 0).

(** Unary minus and the operators with one real operand act on each
    part (C99 G.5: the real operand is not promoted). *)
Definition Cneg (z : cmplx) : cmplx := (- fst z, - snd z).
Definition Csub (z w : cmplx) : cmplx := (fst z - fst w, snd z - snd w).
Definition RmulC (r : R) (z : cmplx) : cmplx := (r * fst z, r * snd z).
Definition CmulR (z : cmplx) (r : R) : cmplx := (fst z * r, snd z * r).
Definition CdivR (z : cmplx) (r : R) : cmplx := (fst z / r, snd z / r).
Definition RaddC (r : R) (z : cmplx) : cmplx := (r + fst z, snd z).
Definition RsubC (r : R) (z : cmplx) : cmplx := (r - fst z, - snd z).
Definition CsubR (z : cmplx) (r : R) : cmplx := (fst z - r, snd z).

(** The colon stands on the side of the complex operand. *)
Infix "*:" := RmulC (at level 40, left associativity) : fp_scope.
Infix ":*" := CmulR (at level 40, left associativity) : fp_scope.
Infix ":/" := CdivR (at level 40, left associativity) : fp_scope.
Infix "+:" := RaddC (at level 50, left associativity) : fp_scope.
Infix "-:" := RsubC (at level 50, left associativity) : fp_scope.
Infix ":-" := CsubR (at level 50, left associativity) : fp_scope.
Infix ":-:" := Csub (at level 50, left associativity) : fp_scope.

(* ================================================================== *)
(** ** What the file calls and does not define *)
(* ================================================================== *)

(** The [pnfft_*] macros stand for functions of <math.h> and
    <complex.h>; [erf] is called by its own name.  [Cmul] is the
    product of two complex values, which C leaves to the compiler's
    runtime.  None of them is in the sources, so they are parameters. *)
Class Libm : Type := {
  pnfft_exp : R -> R;
  pnfft_cos : R -> R;
  pnfft_sin : R -> R;
  pnfft_sqrt : R -> R;
  erf : R -> R;
  pnfft_cexp : cmplx -> cmplx;
  Cmul : cmplx -> cmplx -> cmplx
}.

(** The kernels declared in cerf.h and implemented in files that are
    not among the sources. *)
Class Kernel : Type := {
  w_of_z : cmplx -> cmplx;
  im_w_of_x : R -> R;
  erfcx : R -> R
}.

Infix ":*:" := Cmul (at level 40, left associativity) : fp_scope.

(** Control inside a function body: jump to a label, return, or go on
    with the next statement. *)
Inductive flow (L : Type) : Type :=
| Goto (l : L)
| Return (v : cmplx)
| Next.
Arguments Goto {L} l.
Arguments Return {L} v.
Arguments Next {L}.

(** [s1; s2] *)
Definition andthen {L : Type} (s1 s2 : flow L) : flow L :=
  match s1 with Next => s2 | _ => s1 end.

(* ================================================================== *)
(** ** The functions of err_fcts.c *)
(* ================================================================== *)

Section ErrFcts.

Context {libm : Libm} {kernel : Kernel}.

(** *** Simple wrappers *)

Definition cerfcx (z : cmplx) : cmplx :=
  w_of_z (CNUM (- pnfft_cimag z) (pnfft_creal z)).

Definition erfi (x : R) : R :=
  if x * x >? D 720 then (if x >? D 0 then Inf else - Inf)
  else pnfft_exp (x * x) * im_w_of_x x.

Definition dawson (x : R) : R := spi2 * im_w_of_x x.

Definition re_w_of_z (x y : R) : R := pnfft_creal (w_of_z (CNUM x y)).

Definition im_w_of_z (x y : R) : R := pnfft_cimag (w_of_z (CNUM x y)).

(** *** voigt *)

Definition voigt (x sigma gamma : R) : R :=
  let gam := if gamma <? D 0 then - gamma else gamma in
  let sig := if sigma <? D 0 then - sigma else sigma in
  if gam ==? D 0 then
    if sig ==? D 0 then
      (* x ? 0 : Inf *)
      if negb (x ==? D 0) then D 0 else Inf
    else
      pnfft_exp (- x * x / D 2 / (sig * sig)) / s2pi / sig
  else
    if sig ==? D 0 then
      gam / pi / (x * x + gam * gam)
    else
      let z := CNUM x gam :/ pnfft_sqrt (D 2) :/ sig in
      pnfft_creal (w_of_z z) / s2pi / sig.

(** *** cerf *)

Inductive cerf_label : Type := taylor | taylor_erfi.

(** The block at label [taylor]. *)
Definition cerf_taylor (z : cmplx) (mRe_z2 mIm_z2 : R) : cmplx :=
  let mz2 := CNUM mRe_z2 mIm_z2 in
  z :*: (D 1.1283791670955125739
         +: mz2 :*: (D 0.37612638903183752464
                     +: mz2 :*: (D 0.11283791670955125739
                                 +: mz2 :*: (D 0.026866170645131251760
                                             +: mz2 :* D 0.0052239776254421878422)))).

(** The block at label [taylor_erfi]. *)
Definition cerf_taylor_erfi (x y : R) : cmplx :=
  let x2 := x * x in
  let y2 := y * y in
  let expy2 := pnfft_exp y2 in
  CNUM
    (expy2 * x * (D 1.1283791670955125739
                  - x2 * (D 0.37612638903183752464
                          + D 0.75225277806367504925 * y2)
                  + x2 * x2 * (D 0.11283791670955125739
                               + y2 * (D 0.45135166683820502956
                                       + D 0.15045055561273500986 * y2))))
    (expy2 * (im_w_of_x y
              - x2 * y * (D 1.1283791670955125739
                          - x2 * (D 0.56418958354775628695
                                  + D 0.37612638903183752464 * y2)))).

(** The return on the imaginary axis, shared by its guard below. *)
Definition cerf_imag_axis (x y : R) : cmplx :=
  CNUM x (if y * y >? D 720 then (if y >? D 0 then Inf else - Inf)
          else pnfft_exp (y * y) * im_w_of_x y).

Definition cerf_mirror_pos (x y mRe_z2 mIm_z2 : R) : cmplx :=
  D 1.0 -: pnfft_exp mRe_z2 *:
    (CNUM (pnfft_cos mIm_z2) (pnfft_sin mIm_z2) :*: w_of_z (CNUM (- y) x)).

Definition cerf_mirror_neg (x y mRe_z2 mIm_z2 : R) : cmplx :=
  pnfft_exp mRe_z2 *:
    (CNUM (pnfft_cos mIm_z2) (pnfft_sin mIm_z2) :*: w_of_z (CNUM y (- x)))
  :- D 1.0.

Definition cerf (z : cmplx) : cmplx :=
  let x := pnfft_creal z in
  let y := pnfft_cimag z in
  if y ==? D 0 then CNUM (erf x) y
  else if x ==? D 0 then cerf_imag_axis x y
  else
    let mRe_z2 := (y - x) * (x + y) in
    let mIm_z2 := - D 2 * x * y in
    if mRe_z2 <? - D 750 then CofR (if x >=? D 0 then D 1.0 else - D 1.0)
    else
      let body : flow cerf_label :=
        if x >=? D 0 then
          andthen
            (if x <? D 8e-2 then
               if pnfft_fabs y <? D 1e-2 then Goto taylor
               else if (pnfft_fabs mIm_z2 <? D 5e-3) && (x <? D 5e-3)
                    then Goto taylor_erfi
                    else Next
             else Next)
            (Return (cerf_mirror_pos x y mRe_z2 mIm_z2))
        else
          andthen
            (if x >? - D 8e-2 then
               if pnfft_fabs y <? D 1e-2 then Goto taylor
               else if (pnfft_fabs mIm_z2 <? D 5e-3) && (x >? - D 5e-3)
                    then Goto taylor_erfi
                    else Next
             else if isnan x then
                    Return (CNUM NaN (if y ==? D 0 then D 0 else NaN))
                  else Next)
            (Return (cerf_mirror_neg x y mRe_z2 mIm_z2))
      in
      match body with
      | Return v => v
      | Goto taylor | Next => cerf_taylor z mRe_z2 mIm_z2
      | Goto taylor_erfi => cerf_taylor_erfi x y
      end.

Definition cerfi (z : cmplx) : cmplx :=
  let e := cerf (CNUM (- pnfft_cimag z) (pnfft_creal z)) in
  CNUM (pnfft_cimag e) (- pnfft_creal e).

(** *** cerfc *)

Definition cerfc (z : cmplx) : cmplx :=
  let x := pnfft_creal z in
  let y := pnfft_cimag z in
  if x ==? D 0 then
    CNUM (D 1)
         (if y * y >? D 720 then (if y >? D 0 then - Inf else Inf)
          else - pnfft_exp (y * y) * im_w_of_x y)
  else if y ==? D 0 then
    if x * x >? D 750 then
      CNUM (if x >=? D 0 then D 0.0 else D 2.0) (- y)
    else
      CNUM (if x >=? D 0 then pnfft_exp (- x * x) * erfcx x
            else D 2 - pnfft_exp (- x * x) * erfcx (- x))
           (- y)
  else
    let mRe_z2 := (y - x) * (x + y) in
    let mIm_z2 := - D 2 * x * y in
    if mRe_z2 <? - D 750 then CofR (if x >=? D 0 then D 0.0 else D 2.0)
    else if x >=? D 0 then
      pnfft_cexp (CNUM mRe_z2 mIm_z2) :*: w_of_z (CNUM (- y) x)
    else
      D 2.0 -: pnfft_cexp (CNUM mRe_z2 mIm_z2) :*: w_of_z (CNUM y (- x)).

(** *** cdawson *)

Inductive cdawson_label : Type := dtaylor | taylor_realaxis.

(** The two returns on the imaginary axis. *)
Definition cdawson_imag_taylor (x y y2 : R) : cmplx :=
  CNUM x
       (y * (D 1
             + y2 * (D 0.6666666666666666666666666666666666666667
                     + y2 * D 0.26666666666666666666666666666666666667))).

Definition cdawson_imag_erfcx (x y y2 : R) : cmplx :=
  CNUM x
       (spi2 * (if y >=? D 0
                then pnfft_exp y2 - erfcx y
                else erfcx (- y) - pnfft_exp y2)).

(** The block at label [taylor]. *)
Definition cdawson_taylor (z mz2 : cmplx) : cmplx :=
  z :*: (D 1
         +: mz2 :*: (D 0.6666666666666666666666666666666666666667
                     +: mz2 :* D 0.2666666666666666666666666666666666666667)).

(** The block at label [taylor_realaxis], by its three regimes. *)
Definition cdawson_cf1 (x y x2 y2 : R) : cmplx :=
  let xy2 := (x * y) * (x * y) in
  CNUM ((D 0.5 + y2 * (D 0.5 + D 0.25 * y2
                       - D 0.16666666666666666667 * xy2)) / x)
       (y * (- D 1 + y2 * (- D 0.66666666666666666667
                           + D 0.13333333333333333333 * xy2
                           - D 0.26666666666666666667 * y2))
        / (D 2 * x2 - D 1)).

Definition cdawson_cf6 (x y x2 y2 : R) : cmplx :=
  (D 1 / (- D 15 + x2 * (D 90 + x2 * (- D 60 + D 8 * x2)))) *:
  CNUM (x * (D 33 + x2 * (- D 28 + D 4 * x2)
             + y2 * (D 18 - D 4 * x2 + D 4 * y2)))
       (y * (- D 15 + x2 * (D 24 - D 4 * x2)
             + y2 * (D 4 * x2 - D 10 - D 4 * y2))).

Definition cdawson_taylor_D (x y x2 : R) : cmplx :=
  let D_ := spi2 * im_w_of_x x in
  let y2 := y * y in
  CNUM
    (D_ + y2 * (D_ + x - D 2 * D_ * x2)
     + y2 * y2 * (D_ * (D 0.5 - x2 * (D 2 - D 0.66666666666666666667 * x2))
                  + x * (D 0.83333333333333333333
                         - D 0.33333333333333333333 * x2)))
    (y * (D 1 - D 2 * D_ * x
          + y2 * D 0.66666666666666666667
            * (D 1 - x2 - D_ * x * (D 3 - D 2 * x2))
          + y2 * y2 * (D 0.26666666666666666667
                       - x2 * (D 0.6 - D 0.13333333333333333333 * x2)
                       - D_ * x * (D 1 - x2 * (D 1.3333333333333333333
                                               - D 0.26666666666666666667 * x2))))).

Definition cdawson_taylor_realaxis (x y : R) : cmplx :=
  let x2 := x * x in
  if x2 >? D 1600 then
    let y2 := y * y in
    if x2 >? D 25e14 then cdawson_cf1 x y x2 y2
    else cdawson_cf6 x y x2 y2
  else cdawson_taylor_D x y x2.

(** [spi2 * CNUM(-cimag(res), creal(res))] *)
Definition cdawson_rotate (res : cmplx) : cmplx :=
  spi2 *: CNUM (- pnfft_cimag res) (pnfft_creal res).

Definition cdawson (z : cmplx) : cmplx :=
  let x := pnfft_creal z in
  let y := pnfft_cimag z in
  if y ==? D 0 then CNUM (spi2 * im_w_of_x x) (- y)
  else if x ==? D 0 then
    let y2 := y * y in
    if y2 <? D 2.5e-5 then cdawson_imag_taylor x y y2
    else cdawson_imag_erfcx x y y2
  else
    let mRe_z2 := (y - x) * (x + y) in
    let mIm_z2 := - D 2 * x * y in
    let mz2 := CNUM mRe_z2 mIm_z2 in
    let body : flow cdawson_label :=
      if y >=? D 0 then
        andthen
          (if y <? D 5e-3 then
             if pnfft_fabs x <? D 5e-3 then Goto dtaylor
             else if pnfft_fabs mIm_z2 <? D 5e-3 then Goto taylor_realaxis
             else Next
           else Next)
          (let res := pnfft_cexp mz2 :-: w_of_z z in
           Return (cdawson_rotate res))
      else
        andthen
          (if y >? - D 5e-3 then
             if pnfft_fabs x <? D 5e-3 then Goto dtaylor
             else if pnfft_fabs mIm_z2 <? D 5e-3 then Goto taylor_realaxis
             else Next
           else if isnan y then
                  Return (CNUM (if x ==? D 0 then D 0 else NaN) NaN)
                else Next)
          (let res := w_of_z (Cneg z) :-: pnfft_cexp mz2 in
           Return (cdawson_rotate res))
    in
    match body with
    | Return v => v
    | Goto dtaylor | Next => cdawson_taylor z mz2
    | Goto taylor_realaxis => cdawson_taylor_realaxis x y
    end.

End ErrFcts.

(* ================================================================== *)
(** ** The regions of each dispatcher *)
(* ================================================================== *)

(** For every function the returns of the C body are listed, and
    [*_fires b] is the condition on the argument under which control
    reaches return [b], read off the tests on the path to it. *)

(** *** erfi and dawson *)

Inductive erfi_branch : Type := Erfi_pos_inf | Erfi_neg_inf | Erfi_kernel.

Definition erfi_fires (b : erfi_branch) (x : R) : bool :=
  match b with
  | Erfi_pos_inf => (x * x >? D 720) && (x >? D 0)
  | Erfi_neg_inf => (x * x >? D 720) && negb (x >? D 0)
  | Erfi_kernel => negb (x * x >? D 720)
  end.

Inductive dawson_branch : Type := Dawson_kernel.

Definition dawson_fires (b : dawson_branch) (x : R) : bool := true.

(** *** voigt *)

Inductive voigt_branch : Type :=
  Voigt_delta | Voigt_gauss | Voigt_lorentz | Voigt_regular.

Definition voigt_fires (b : voigt_branch) (a : R * R * R) : bool :=
  let '(x, sigma, gamma) := a in
  let gam := if gamma <? D 0 then - gamma else gamma in
  let sig := if sigma <? D 0 then - sigma else sigma in
  match b with
  | Voigt_delta => (gam ==? D 0) && (sig ==? D 0)
  | Voigt_gauss => (gam ==? D 0) && negb (sig ==? D 0)
  | Voigt_lorentz => negb (gam ==? D 0) && (sig ==? D 0)
  | Voigt_regular => negb (gam ==? D 0) && negb (sig ==? D 0)
  end.

(** *** cerf *)

Inductive cerf_branch : Type :=
| Erf_real_axis
| Erf_imag_axis
| Erf_underflow
| Erf_taylor
| Erf_taylor_erfi
| Erf_mirror_pos
| Erf_nan
| Erf_mirror_neg.

Definition cerf_fires (b : cerf_branch) (z : cmplx) : bool :=
  let x := pnfft_creal z in
  let y := pnfft_cimag z in
  let mRe_z2 := (y - x) * (x + y) in
  let mIm_z2 := - D 2 * x * y in
  let off_axes := negb (y ==? D 0) && negb (x ==? D 0) in
  let general := off_axes && negb (mRe_z2 <? - D 750) in
  let right := x >=? D 0 in
  let near := if right then x <? D 8e-2 else x >? - D 8e-2 in
  let nearer := if right then x <? D 5e-3 else x >? - D 5e-3 in
  let to_taylor := near && (pnfft_fabs y <? D 1e-2) in
  let to_taylor_erfi :=
    near && negb (pnfft_fabs y <? D 1e-2) && (pnfft_fabs mIm_z2 <? D 5e-3) && nearer in
  let to_nan := negb right && negb near && isnan x in
  match b with
  | Erf_real_axis => y ==? D 0
  | Erf_imag_axis => negb (y ==? D 0) && (x ==? D 0)
  | Erf_underflow => off_axes && (mRe_z2 <? - D 750)
  | Erf_taylor => general && to_taylor
  | Erf_taylor_erfi => general && to_taylor_erfi
  | Erf_mirror_pos =>
      general && right && negb to_taylor && negb to_taylor_erfi
  | Erf_nan => general && to_nan
  | Erf_mirror_neg =>
      general && negb right && negb to_taylor && negb to_taylor_erfi
      && negb to_nan
  end.

(** *** cerfc *)

Inductive cerfc_branch : Type :=
| Erfc_imag_axis
| Erfc_real_axis_underflow
| Erfc_real_axis
| Erfc_underflow
| Erfc_mirror_pos
| Erfc_mirror_neg.

Definition cerfc_fires (b : cerfc_branch) (z : cmplx) : bool :=
  let x := pnfft_creal z in
  let y := pnfft_cimag z in
  let mRe_z2 := (y - x) * (x + y) in
  let off_axes := negb (x ==? D 0) && negb (y ==? D 0) in
  let general := off_axes && negb (mRe_z2 <? - D 750) in
  match b with
  | Erfc_imag_axis => x ==? D 0
  | Erfc_real_axis_underflow =>
      negb (x ==? D 0) && (y ==? D 0) && (x * x >? D 750)
  | Erfc_real_axis =>
      negb (x ==? D 0) && (y ==? D 0) && negb (x * x >? D 750)
  | Erfc_underflow => off_axes && (mRe_z2 <? - D 750)
  | Erfc_mirror_pos => general && (x >=? D 0)
  | Erfc_mirror_neg => general && negb (x >=? D 0)
  end.

(** *** cdawson *)

Inductive cdawson_branch : Type :=
| Daw_real_axis
| Daw_imag_taylor
| Daw_imag_erfcx
| Daw_taylor
| Daw_realaxis_D
| Daw_realaxis_cf6
| Daw_realaxis_cf1
| Daw_direct_upper
| Daw_nan
| Daw_direct_lower.

Definition cdawson_fires (b : cdawson_branch) (z : cmplx) : bool :=
  let x := pnfft_creal z in
  let y := pnfft_cimag z in
  let mIm_z2 := - D 2 * x * y in
  let x2 := x * x in
  let off_axes := negb (y ==? D 0) && negb (x ==? D 0) in
  let upper := y >=? D 0 in
  let near := if upper then y <? D 5e-3 else y >? - D 5e-3 in
  let to_taylor := near && (pnfft_fabs x <? D 5e-3) in
  let to_realaxis :=
    near && negb (pnfft_fabs x <? D 5e-3) && (pnfft_fabs mIm_z2 <? D 5e-3) in
  let to_nan := negb upper && negb near && isnan y in
  match b with
  | Daw_real_axis => y ==? D 0
  | Daw_imag_taylor =>
      negb (y ==? D 0) && (x ==? D 0) && (y * y <? D 2.5e-5)
  | Daw_imag_erfcx =>
      negb (y ==? D 0) && (x ==? D 0) && negb (y * y <? D 2.5e-5)
  | Daw_taylor => off_axes && to_taylor
  | Daw_realaxis_D => off_axes && to_realaxis && negb (x2 >? D 1600)
  | Daw_realaxis_cf6 =>
      off_axes && to_realaxis && (x2 >? D 1600) && negb (x2 >? D 25e14)
  | Daw_realaxis_cf1 =>
      off_axes && to_realaxis && (x2 >? D 1600) && (x2 >? D 25e14)
  | Daw_direct_upper =>
      off_axes && upper && negb to_taylor && negb to_realaxis
  | Daw_nan => off_axes && to_nan
  | Daw_direct_lower =>
      off_axes && negb upper && negb to_taylor && negb to_realaxis
      && negb to_nan
  end.

Section Returns.

Context {libm : Libm} {kernel : Kernel}.

(** The expression each return evaluates. *)

Definition erfi_returns (b : erfi_branch) (x : R) : R :=
  match b with
  | Erfi_pos_inf => Inf
  | Erfi_neg_inf => - Inf
  | Erfi_kernel => pnfft_exp (x * x) * im_w_of_x x
  end.

Definition dawson_returns (b : dawson_branch) (x : R) : R :=
  spi2 * im_w_of_x x.

Definition voigt_returns (b : voigt_branch) (a : R * R * R) : R :=
  let '(x, sigma, gamma) := a in
  let gam := if gamma <? D 0 then - gamma else gamma in
  let sig := if sigma <? D 0 then - sigma else sigma in
  match b with
  | Voigt_delta => if negb (x ==? D 0) then D 0 else Inf
  | Voigt_gauss => pnfft_exp (- x * x / D 2 / (sig * sig)) / s2pi / sig
  | Voigt_lorentz => gam / pi / (x * x + gam * gam)
  | Voigt_regular =>
      pnfft_creal (w_of_z (CNUM x gam :/ pnfft_sqrt (D 2) :/ sig))
      / s2pi / sig
  end.

Definition cerf_returns (b : cerf_branch) (z : cmplx) : cmplx :=
  let x := pnfft_creal z in
  let y := pnfft_cimag z in
  let mRe_z2 := (y - x) * (x + y) in
  let mIm_z2 := - D 2 * x * y in
  match b with
  | Erf_real_axis => CNUM (erf x) y
  | Erf_imag_axis => cerf_imag_axis x y
  | Erf_underflow => CofR (if x >=? D 0 then D 1.0 else - D 1.0)
  | Erf_taylor => cerf_taylor z mRe_z2 mIm_z2
  | Erf_taylor_erfi => cerf_taylor_erfi x y
  | Erf_mirror_pos => cerf_mirror_pos x y mRe_z2 mIm_z2
  | Erf_nan => CNUM NaN (if y ==? D 0 then D 0 else NaN)
  | Erf_mirror_neg => cerf_mirror_neg x y mRe_z2 mIm_z2
  end.

Definition cerfc_returns (b : cerfc_branch) (z : cmplx) : cmplx :=
  let x := pnfft_creal z in
  let y := pnfft_cimag z in
  let mRe_z2 := (y - x) * (x + y) in
  let mIm_z2 := - D 2 * x * y in
  match b with
  | Erfc_imag_axis =>
      CNUM (D 1)
           (if y * y >? D 720 then (if y >? D 0 then - Inf else Inf)
            else - pnfft_exp (y * y) * im_w_of_x y)
  | Erfc_real_axis_underflow =>
      CNUM (if x >=? D 0 then D 0.0 else D 2.0) (- y)
  | Erfc_real_axis =>
      CNUM (if x >=? D 0 then pnfft_exp (- x * x) * erfcx x
            else D 2 - pnfft_exp (- x * x) * erfcx (- x))
           (- y)
  | Erfc_underflow => CofR (if x >=? D 0 then D 0.0 else D 2.0)
  | Erfc_mirror_pos =>
      pnfft_cexp (CNUM mRe_z2 mIm_z2) :*: w_of_z (CNUM (- y) x)
  | Erfc_mirror_neg =>
      D 2.0 -: pnfft_cexp (CNUM mRe_z2 mIm_z2) :*: w_of_z (CNUM y (- x))
  end.

Definition cdawson_returns (b : cdawson_branch) (z : cmplx) : cmplx :=
  let x := pnfft_creal z in
  let y := pnfft_cimag z in
  let mRe_z2 := (y - x) * (x + y) in
  let mIm_z2 := - D 2 * x * y in
  let mz2 := CNUM mRe_z2 mIm_z2 in
  match b with
  | Daw_real_axis => CNUM (spi2 * im_w_of_x x) (- y)
  | Daw_imag_taylor => cdawson_imag_taylor x y (y * y)
  | Daw_imag_erfcx => cdawson_imag_erfcx x y (y * y)
  | Daw_taylor => cdawson_taylor z mz2
  | Daw_realaxis_D => cdawson_taylor_D x y (x * x)
  | Daw_realaxis_cf6 => cdawson_cf6 x y (x * x) (y * y)
  | Daw_realaxis_cf1 => cdawson_cf1 x y (x * x) (y * y)
  | Daw_direct_upper => cdawson_rotate (pnfft_cexp mz2 :-: w_of_z z)
  | Daw_nan => CNUM (if x ==? D 0 then D 0 else NaN) NaN
  | Daw_direct_lower => cdawson_rotate (w_of_z (Cneg z) :-: pnfft_cexp mz2)
  end.

End Returns.

(** A function [f] dispatches over the regions [fires] when every
    argument lies in exactly one region and [f] returns what that
    region's return evaluates. *)
Definition dispatches {A B V : Type}
  (f : A -> V) (fires : B -> A -> bool) (returns : B -> A -> V) : Prop :=
  forall a : A,
    exists b : B,
      fires b a = true
      /\ (forall b' : B, fires b' a = true -> b' = b)
      /\ f a = returns b a.

(** fpclassify: every double is a NaN, an infinity, or finite. *)
Definition classified (r : R) : Prop :=
  isnan r = true \/ isinf r = true \/ isfinite r = true.

Definition cclassified (z : cmplx) : Prop :=
  classified (fst z) /\ classified (snd z).

(* ================================================================== *)
(** ** Equality of results *)
(* ================================================================== *)

(** C's [==] on doubles, with two NaNs taken as the same result: the
    two zeros are equal, as in C. *)
Definition feq (a b : R) : Prop :=
  (a ==? b) = true \/ (isnan a = true /\ isnan b = true).

Definition ceq (z w : cmplx) : Prop :=
  feq (fst z) (fst w) /\ feq (snd z) (snd w).

(** What [feq] comes to: the same double, or two zeros. *)
Inductive same : R -> R -> Prop :=
| same_refl (a : R) : same a a
| same_zero (s t : bool) : same (S754_zero s) (S754_zero t).

#[local] Hint Constructors same : core.

(** The region of [-z], given the region of [z]: negation exchanges the
    two half planes. *)
Definition cdawson_mirror (b : cdawson_branch) : cdawson_branch :=
  match b with
  | Daw_direct_upper => Daw_direct_lower
  | Daw_direct_lower => Daw_direct_upper
  | _ => b
  end.

(** The same for [cerf]. *)
Definition cerf_mirror (b : cerf_branch) : cerf_branch :=
  match b with
  | Erf_mirror_pos => Erf_mirror_neg
  | Erf_mirror_neg => Erf_mirror_pos
  | _ => b
  end.

(* ================================================================== *)
(** ** Dawson's integral for large arguments, in exact arithmetic *)
(* ================================================================== *)

(** The rational number a finite double stands for (0 for the rest). *)
Definition Q_of_R (r : R) : Q :=
  match r with
  | S754_finite s m e =>
      Qred (((if s then Zneg m else Zpos m) # 1) * Qpower 2 e)%Q
  | _ => 0%Q
  end.

(** Gaussian integers. *)
Definition Gmul (a b : Z * Z) : Z * Z :=
  (fst a * fst b - snd a * snd b, fst a * snd b + snd a * fst b)%Z.

Fixpoint Gpow (t : Z * Z) (n : nat) : Z * Z :=
  match n with
  | O => (1, 0)%Z
  | S n' => Gmul t (Gpow t n')
  end.

(** [sum_{k <= n} (2k-1)!! * u^k * t^(n-k)] by Horner's rule: [acc] is
    the sum up to [j - 1], [df] is [(2j-3)!!] and [up] is [u^(j-1)]. *)
Fixpoint Ghorner (n : nat) (j df u up : Z) (t acc : Z * Z) : Z * Z :=
  match n with
  | O => acc
  | S n' =>
      let df' := (df * (2 * j - 1))%Z in
      let up' := (up * u)%Z in
      let acc' := Gmul acc t in
      Ghorner n' (j + 1)%Z df' u up' t
              ((fst acc' + df' * up')%Z, snd acc')
  end.

(** The asymptotic expansion which the comment at [taylor_realaxis]
    starts from, cut after the term of index [n]:
    dawson(z) ~ sum_{k <= n} (2k-1)!! / (2^(k+1) z^(2k+1)).
    For z = (a + ib)/d and t = 2(a + ib)^2 the sum is
    d * N / (2 (a + ib) t^n) with N = sum_k (2k-1)!! (d^2)^k t^(n-k);
    the quotient is formed with the conjugate of the denominator. *)
Definition dawson_asymptotic (n : nat) (z : Q * Q) : Q * Q :=
  let d := Zpos (Qden (fst z) * Qden (snd z)) in
  let a := (Qnum (fst z) * Zpos (Qden (snd z)))%Z in
  let b := (Qnum (snd z) * Zpos (Qden (fst z)))%Z in
  let t := Gmul (2, 0)%Z (Gmul (a, b) (a, b)) in
  let N := Ghorner n 1 1 (d * d) 1 t (1, 0)%Z in
  let den := Gmul (2 * a, 2 * b)%Z (Gpow t n) in
  let p := Gmul N (fst den, - snd den)%Z in
  let m := Z.to_pos (fst den * fst den + snd den * snd den) in
  ((d * fst p)%Z # m, (d * snd p)%Z # m).

(** [a] is within relative error [eps] of [r]. *)
Definition within (eps a r : Q) : Prop :=
  (Qabs (a - r) <= eps * Qabs r)%Q.

(* ================================================================== *)
(** ** The test driver check_trafo_vs_ndft_float.c *)
(* ================================================================== *)

(** The driver works in single precision: a C [float] is an IEEE
    binary32 number, a [spec_float] at precision 24 with exponent bound
    128.  The comparisons of [fp_scope] do not depend on the format. *)
Definition float32 : Type := spec_float.
Definition fprec : Z := 24.
Definition femax : Z := 128.

Definition Fmul : float32 -> float32 -> float32 := SFmul fprec femax.
Definition Fadd : float32 -> float32 -> float32 := SFadd fprec femax.
Definition Fsub : float32 -> float32 -> float32 := SFsub fprec femax.

(** The conversions C inserts: [int] to [double], [double] to [float]
    on assignment (to the nearest, ties to even), and [float] to
    [double] where a [float] meets a [double] (exact). *)
Definition double_of_int (n : Z) : R := binary_normalize prec emax n 0 false.

Definition float_of_double (d : R) : float32 :=
  match d with
  | S754_finite s m e => binary_round fprec femax s m e
  | _ => d
  end.

Definition double_of_float (f : float32) : R :=
  match f with
  | S754_finite s m e => binary_round prec emax s m e
  | _ => f
  end.

(** [pnfftf_complex], and the difference of two of them. *)
Definition cmplxf : Type := (float32 * float32)%type.

Definition Csubf (z w : cmplxf) : cmplxf :=
  (Fsub (fst z) (fst w), Fsub (snd z) (snd w)).

(** [a[k] = v], on an array seen as the map from its indices. *)
Definition store {A : Type} (a : Z -> A) (k : Z) (v : A) : Z -> A :=
  fun i => if Z.eqb i k then v else a i.

(** [for (i = start; i < start + count; i++) body], on a state that the
    body may fail to return. *)
Fixpoint for_loop {St : Type} (body : nat -> St -> option St)
  (start count : nat) (s : St) : option St :=
  match count with
  | O => Some s
  | S count' =>
      match body start s with
      | Some s' => for_loop body (S start) count' s'
      | None => None
      end
  end.

Section Driver.

(** [RAND_MAX] of <stdlib.h> and [cabsf] of <complex.h>. *)
Variable RAND_MAX : Z.
Variable cabsf : cmplxf -> float32.

(** The state of [rand] is the list of the values its coming calls
    return.  A function that calls [rand] takes the list and returns
    what is left of it, and [None] when the list ends before the
    function returns. *)
Fixpoint random_number_less_than_one (rand : list Z)
  : option (float32 * list Z) :=
  match rand with
  | [] => None
  | r :: rand' =>
      let tmp :=
        float_of_double ((D 1.0 * double_of_int r) / double_of_int RAND_MAX) in
      if double_of_float tmp >=? D 1.0
      then random_number_less_than_one rand'
      else Some (tmp, rand')
  end.

(** The [do ... while] of [init_random_x] for one coordinate, in at
    most [fuel] passes. *)
Fixpoint init_random_x_draw (lo up x_max : float32) (fuel : nat)
  (rand : list Z) : option (float32 * list Z) :=
  match fuel with
  | O => None
  | S fuel' =>
      match random_number_less_than_one rand with
      | None => None
      | Some (tmp, rand') =>
          let tmp := Fadd (Fmul (Fsub up lo) tmp) lo in
          if (tmp <? - x_max) || (x_max <=? tmp)
          then init_random_x_draw lo up x_max fuel' rand'
          else Some (tmp, rand')
      end
  end.

(** The body of the loop over [t], on the list of [rand] and the array
    [x].  Every pass of the [do ... while] takes a value off the list,
    so the length of the list is fuel enough. *)
Definition init_random_x_body (lo up x_max : nat -> float32) (j t : nat)
  (s : list Z * (Z -> float32)) : option (list Z * (Z -> float32)) :=
  let '(rand, x) := s in
  match init_random_x_draw (lo t) (up t) (x_max t) (length rand) rand with
  | None => None
  | Some (tmp, rand') =>
      Some (rand', store x (3 * Z.of_nat j + Z.of_nat t)%Z tmp)
  end.

Definition init_random_x (lo up x_max : nat -> float32) (M : Z)
  (s : list Z * (Z -> float32)) : option (list Z * (Z -> float32)) :=
  for_loop (fun j => for_loop (init_random_x_body lo up x_max j) 0 3)
           0 (Z.to_nat M) s.

(** The loop of [compare_f]. *)
Fixpoint compare_f_loop (f_pnfft f_nfft : Z -> cmplxf)
  (j : Z) (count : nat) (error : float32) : float32 :=
  match count with
  | O => error
  | S count' =>
      let error :=
        if cabsf (Csubf (f_pnfft j) (f_nfft j)) >? error
        then cabsf (Csubf (f_pnfft j) (f_nfft j))
        else error in
      compare_f_loop f_pnfft f_nfft (j + 1)%Z count' error
  end.

(** [compare_f] up to its call of [MPI_Reduce]: the value of [error]
    which the process contributes to the maximum that is printed. *)
Definition compare_f (f_pnfft f_nfft : Z -> cmplxf) (local_M : Z) : float32 :=
  compare_f_loop f_pnfft f_nfft 0 (Z.to_nat local_M) (S754_zero false).

(** Names for what the loops compute and test: the value [tmp] gets
    from the value [r] of [rand], the test of
    [random_number_less_than_one] on it, the assignment
    [tmp = (up[t]-lo[t]) * tmp + lo[t]], and the test of
    [init_random_x]. *)
Definition ratio (r : Z) : float32 :=
  float_of_double ((D 1.0 * double_of_int r) / double_of_int RAND_MAX).

Definition rejected (r : Z) : bool := double_of_float (ratio r) >=? D 1.0.

Definition scaled (lo up tmp : float32) : float32 :=
  Fadd (Fmul (Fsub up lo) tmp) lo.

Definition out_of_range (x_max c : float32) : bool :=
  (c <? - x_max) || (x_max <=? c).

(** What holds once the coordinates of linear index below [k] are
    written: they are in range, the rest of [x] is as it was, and the
    values of [rand] came from the front of the list. *)
Definition written (x_max : nat -> float32) (rand0 : list Z)
  (x0 : Z -> float32) (k : nat) (s : list Z * (Z -> float32)) : Prop :=
  (forall j t : nat,
      (t < 3)%nat -> (3 * j + t < k)%nat ->
      out_of_range (x_max t) (snd s (3 * Z.of_nat j + Z.of_nat t)%Z) = false)
  /\ (forall i : Z, (i < 0 \/ Z.of_nat k <= i)%Z -> snd s i = x0 i)
  /\ exists used : list Z, rand0 = used ++ fst s.

End Driver.

(* ================================================================== *)
(** ** Signs *)
(* ================================================================== *)

(** [r] is a number with sign bit [s]. *)
Definition signed (s : bool) (r : spec_float) : Prop :=
  match r with
  | S754_nan => False
  | S754_zero t | S754_infinity t | S754_finite t _ _ => t = s
  end.

(** NaN, or a number whose sign bit is clear. *)
Definition sign_clear (r : R) : Prop :=
  match r with
  | S754_nan => True
  | S754_zero s | S754_infinity s | S754_finite s _ _ => s = false
  end.

(* ================================================================== *)
(** ** First-order stand-ins for the external functions *)
(* ================================================================== *)

(** To run the dispatchers on concrete arguments the interfaces need
    inhabitants.  Each function below is the start of the Taylor
    series at 0 of the function it stands in for; the product of two
    complex values is the four-multiplication formula of C99 G.5.1. *)
Module FirstOrder.

Definition exp1 (x : R) : R := D 1 + x.
Definition cos1 (x : R) : R := D 1 - x * x / D 2.
Definition sin1 (x : R) : R := x.
Definition erf1 (x : R) : R := D 1.1283791670955125739 * x.
Definition cexp1 (z : cmplx) : cmplx :=
  exp1 (fst z) *: CNUM (cos1 (snd z)) (sin1 (snd z)).
Definition Cmul4 (z w : cmplx) : cmplx :=
  CNUM (fst z * fst w - snd z * snd w) (fst z * snd w + snd z * fst w).

Definition libm : Libm :=
  {| pnfft_exp := exp1;
     pnfft_cos := cos1;
     pnfft_sin := sin1;
     pnfft_sqrt := SFsqrt prec emax;
     erf := erf1;
     pnfft_cexp := cexp1;
     Cmul := Cmul4 |}.

(** w(z) = 1 + 2iz/sqrt(pi) + ..., erfcx(x) = 1 - 2x/sqrt(pi) + ... *)
Definition w1 (z : cmplx) : cmplx :=
  CNUM (D 1 - D 1.1283791670955125739 * snd z)
       (D 1.1283791670955125739 * fst z).
Definition im_w1 (x : R) : R := D 1.1283791670955125739 * x.
Definition erfcx1 (x : R) : R := D 1 - D 1.1283791670955125739 * x.

Definition kernel : Kernel :=
  {| w_of_z := w1; im_w_of_x := im_w1; erfcx := erfcx1 |}.

End FirstOrder.

(** Stand-ins that are not negative where the functions they stand in
    for are not: exp(x) = (1 + x/2)^2 + ..., and on the imaginary axis
    w(iy) = erfcx(y) = 1 / (1 + 2y/sqrt(pi)) + ... *)
Module Positive.

Definition exp2 (x : R) : R := (D 1 + x / D 2) * (D 1 + x / D 2).

Definition w_pade (z : cmplx) : cmplx :=
  CNUM (D 1 / (D 1 + D 1.1283791670955125739 * snd z))
       (D 1.1283791670955125739 * fst z).

Definition libm : Libm :=
  {| pnfft_exp := exp2;
     pnfft_cos := FirstOrder.cos1;
     pnfft_sin := FirstOrder.sin1;
     pnfft_sqrt := SFsqrt prec emax;
     erf := FirstOrder.erf1;
     pnfft_cexp := FirstOrder.cexp1;
     Cmul := FirstOrder.Cmul4 |}.

Definition kernel : Kernel :=
  {| w_of_z := w_pade;
     im_w_of_x := FirstOrder.im_w1;
     erfcx := FirstOrder.erfcx1 |}.

End Positive.

(** To run the driver: the [RAND_MAX] of glibc, the 1-norm
    [|re| + |im|] in the place of [cabsf], and the arrays [lo], [up]
    and [x_max] with the same entry in every dimension. *)
Module Run.

Definition RAND_MAX : Z := 2147483647.

Definition cabsf1 (z : cmplxf) : float32 := Fadd (SFabs (fst z)) (SFabs (snd z)).

Definition all3 (a : float32) : nat -> float32 := fun _ => a.

Definition half : float32 := float_of_double (D 0.5).
Definition quarter : float32 := float_of_double (D 0.25).

End Run.

(* ================================================================== *)
(** ** Facts of IEEE arithmetic used below *)
(* ================================================================== *)

Lemma D_zero : D 0 = S754_zero false.
Proof. reflexivity. Qed.

Lemma Ropp_involutive (x : R) : - - x = x.
Proof. destruct x as [s|s| |s m e]; simpl; try rewrite negb_involutive; reflexivity. Qed.

Lemma fabs_opp (x : R) : pnfft_fabs (- x) = pnfft_fabs x.
Proof. destruct x; reflexivity. Qed.

Lemma isnan_opp (x : R) : isnan (- x) = isnan x.
Proof. destruct x; reflexivity. Qed.

(** Rounding does not look at the sign. *)
Lemma binary_round_aux_opp (s : bool) (m e : Z) (l : location) :
  binary_round_aux prec emax (negb s) m e l
  = - binary_round_aux prec emax s m e l.
Proof.
  unfold binary_round_aux.
  destruct (shr_fexp prec emax m e l) as [mrs' e'].
  destruct (shr_fexp prec emax _ e' loc_Exact) as [mrs'' e''].
  destruct (shr_m mrs''); try reflexivity.
  destruct (Z.leb e'' (emax - prec)); reflexivity.
Qed.

Lemma binary_round_opp (s : bool) (m : positive) (e : Z) :
  binary_round prec emax (negb s) m e = - binary_round prec emax s m e.
Proof.
  unfold binary_round.
  destruct (shl_align m e _) as [mz ez].
  apply binary_round_aux_opp.
Qed.

Lemma xorb_negb_l (a b : bool) : xorb (negb a) b = negb (xorb a b).
Proof. destruct a, b; reflexivity. Qed.

Lemma xorb_negb_r (a b : bool) : xorb a (negb b) = negb (xorb a b).
Proof. destruct a, b; reflexivity. Qed.

Lemma Rmul_opp_l (a b : R) : - a * b = - (a * b).
Proof.
  destruct a as [s|s| |s m e], b as [t|t| |t n f]; simpl;
    rewrite ?xorb_negb_l; try reflexivity.
  apply binary_round_aux_opp.
Qed.

Lemma Rmul_opp_r (a b : R) : a * - b = - (a * b).
Proof.
  destruct a as [s|s| |s m e], b as [t|t| |t n f]; simpl;
    rewrite ?xorb_negb_r; try reflexivity.
  apply binary_round_aux_opp.
Qed.

Lemma Rmul_opp_opp (a b : R) : - a * - b = a * b.
Proof. now rewrite Rmul_opp_l, Rmul_opp_r, Ropp_involutive. Qed.

Lemma Rdiv_opp_l (a b : R) : - a / b = - (a / b).
Proof.
  destruct a as [s|s| |s m e], b as [t|t| |t n f]; simpl;
    rewrite ?xorb_negb_l; try reflexivity.
  destruct (SFdiv_core_binary prec emax (Z.pos m) e (Z.pos n) f) as [[mz ez] lz].
  apply binary_round_aux_opp.
Qed.

Lemma Rdiv_opp_r (a b : R) : a / - b = - (a / b).
Proof.
  destruct a as [s|s| |s m e], b as [t|t| |t n f]; simpl;
    rewrite ?xorb_negb_r; try reflexivity.
  destruct (SFdiv_core_binary prec emax (Z.pos m) e (Z.pos n) f) as [[mz ez] lz].
  apply binary_round_aux_opp.
Qed.

(** *** Comparisons *)

Lemma compare_cont_Eq_antisym (m n : positive) :
  Pos.compare_cont Eq n m = CompOpp (Pos.compare_cont Eq m n).
Proof. now rewrite (Pos.compare_cont_antisym m n Eq). Qed.

Lemma SFcompare_antisym (a b : R) :
  SFcompare b a = option_map CompOpp (SFcompare a b).
Proof.
  destruct a as [s|s| |s m e], b as [t|t| |t n f]; simpl;
    try reflexivity;
    try (destruct s; reflexivity); try (destruct t; reflexivity);
    try (destruct s, t; reflexivity).
  destruct s, t; simpl; try reflexivity;
    rewrite (Z.compare_antisym e f);
    destruct (Z.compare e f); simpl; try reflexivity;
    now rewrite (compare_cont_Eq_antisym m n).
Qed.

Lemma SFcompare_opp (a b : R) : SFcompare (- a) (- b) = SFcompare b a.
Proof.
  destruct a as [s|s| |s m e], b as [t|t| |t n f]; simpl;
    try reflexivity;
    try (destruct s; reflexivity); try (destruct t; reflexivity);
    try (destruct s, t; reflexivity).
  destruct s, t; simpl; try reflexivity;
    rewrite (Z.compare_antisym e f);
    destruct (Z.compare e f); simpl; try reflexivity;
    rewrite (compare_cont_Eq_antisym m n); try reflexivity;
    now rewrite CompOpp_involutive.
Qed.

Lemma SFltb_opp (a b : R) : (- a <? - b) = (b <? a).
Proof. unfold SFltb. now rewrite SFcompare_opp. Qed.

(** [a < b] excludes [b <= a], and [a <= b] excludes [b < a]. *)
Lemma SFltb_not_leb (a b : R) : (a <? b) = true -> (b <=? a) = false.
Proof.
  unfold SFltb, SFleb. rewrite (SFcompare_antisym a b).
  destruct (SFcompare a b) as [[ | | ]|]; simpl; congruence.
Qed.

Lemma SFleb_not_ltb (a b : R) : (a <=? b) = true -> (b <? a) = false.
Proof.
  unfold SFltb, SFleb. rewrite (SFcompare_antisym a b).
  destruct (SFcompare a b) as [[ | | ]|]; simpl; congruence.
Qed.

(** Two numbers that are not NaN are ordered. *)
Lemma SFleb_total (a b : R) :
  isnan a = false -> isnan b = false -> (a <=? b) = false -> (b <? a) = true.
Proof.
  unfold SFltb, SFleb. rewrite (SFcompare_antisym a b).
  destruct a as [s|s| |s m e], b as [t|t| |t n f]; simpl; try congruence;
    try (destruct s; simpl; congruence); try (destruct t; simpl; congruence);
    try (destruct s, t; simpl; congruence).
  destruct s, t; simpl; try congruence;
    destruct (Z.compare e f); simpl; try congruence;
    destruct (Pos.compare_cont Eq m n); simpl; congruence.
Qed.

(** What C's [x == 0] says about [x]. *)
Lemma eqb_zero_iff (x : R) : (x ==? D 0) = true <-> exists s, x = S754_zero s.
Proof.
  rewrite D_zero. split.
  - destruct x as [s|s| |s m e]; simpl; try discriminate.
    + now exists s.
    + destruct s; discriminate.
    + destruct s; discriminate.
  - intros [s ->]. reflexivity.
Qed.

Lemma eqb_zero_opp (x : R) : (- x ==? D 0) = (x ==? D 0).
Proof. rewrite D_zero. destruct x as [s|s| |s m e]; try reflexivity; destruct s; reflexivity. Qed.

Lemma Rmul_nan_l (a : R) : NaN * a = NaN.
Proof. reflexivity. Qed.

Lemma Rmul_nan_r (a : R) : a * NaN = NaN.
Proof. destruct a; reflexivity. Qed.

Lemma Radd_nan_l (a : R) : NaN + a = NaN.
Proof. reflexivity. Qed.

Lemma Rsub_nan_l (a : R) : NaN - a = NaN.
Proof. reflexivity. Qed.

Lemma Rsub_nan_r (a : R) : a - NaN = NaN.
Proof. destruct a; reflexivity. Qed.

Lemma Rdiv_nan_l (a : R) : NaN / a = NaN.
Proof. reflexivity. Qed.

Lemma Rdiv_nan_r (a : R) : a / NaN = NaN.
Proof. destruct a; reflexivity. Qed.

(* ================================================================== *)
(** ** Every dispatcher is a partition into its regions *)
(* ================================================================== *)

(** Split on the outcome of one test of the body. *)
Ltac case_test :=
  match goal with
  | |- context [SFeqb ?a ?b] => generalize (SFeqb a b)
  | |- context [SFltb ?a ?b] => generalize (SFltb a b)
  | |- context [SFleb ?a ?b] => generalize (SFleb a b)
  | |- context [isnan ?a] => generalize (isnan a)
  end;
  intros [|]; cbn [andb negb orb andthen].

(** Once all tests are decided, one region is left. *)
Ltac pick_branch :=
  unshelve eexists; [ constructor | ];
  split;
  [ reflexivity
  | split;
    [ intros b'; destruct b'; intros Hb;
      first [ reflexivity | discriminate Hb ]
    | reflexivity ] ].

Ltac by_cases_on_tests :=
  cbn [fst snd]; cbv zeta; repeat case_test; solve [pick_branch].

Lemma dispatches_at {A B V : Type}
  (f : A -> V) (fires : B -> A -> bool) (returns : B -> A -> V) :
  dispatches f fires returns ->
  forall (a : A) (b : B), fires b a = true -> f a = returns b a.
Proof.
  intros Hd a b Hb.
  destruct (Hd a) as [b0 [_ [Huniq Hret]]].
  now rewrite (Huniq b Hb).
Qed.

Lemma classified_all (r : R) : classified r.
Proof.
  unfold classified.
  destruct r; simpl; auto.
Qed.

Section Dispatch.

Context {libm : Libm} {kernel : Kernel}.

Lemma erfi_dispatches : dispatches erfi erfi_fires erfi_returns.
Proof.
  intros x. unfold erfi, erfi_fires, erfi_returns.
  by_cases_on_tests.
Qed.

Lemma dawson_dispatches : dispatches dawson dawson_fires dawson_returns.
Proof.
  intros x. exists Dawson_kernel.
  repeat split. now intros [].
Qed.

Lemma voigt_dispatches :
  dispatches (fun a : R * R * R => let '(x, sigma, gamma) := a in
                                   voigt x sigma gamma)
             voigt_fires voigt_returns.
Proof.
  intros [[x sigma] gamma]. unfold voigt, voigt_fires, voigt_returns.
  cbv zeta.
  generalize (if gamma <? D 0 then - gamma else gamma) as gam.
  generalize (if sigma <? D 0 then - sigma else sigma) as sig.
  intros sig gam.
  by_cases_on_tests.
Qed.

Lemma cerf_dispatches : dispatches cerf cerf_fires cerf_returns.
Proof.
  intros [x y].
  unfold cerf, cerf_fires, cerf_returns, pnfft_creal, pnfft_cimag.
  by_cases_on_tests.
Qed.

Lemma cerfc_dispatches : dispatches cerfc cerfc_fires cerfc_returns.
Proof.
  intros [x y].
  unfold cerfc, cerfc_fires, cerfc_returns, pnfft_creal, pnfft_cimag.
  by_cases_on_tests.
Qed.

Lemma cdawson_dispatches :
  dispatches cdawson cdawson_fires cdawson_returns.
Proof.
  intros [x y].
  unfold cdawson, cdawson_fires, cdawson_returns, cdawson_taylor_realaxis,
    pnfft_creal, pnfft_cimag.
  by_cases_on_tests.
Qed.

End Dispatch.

(** C2.  Every dispatcher ([cerf], [cerfc], [cdawson], [voigt], [erfi],
    [dawson]) is total: for every argument, NaN and the infinities
    included, exactly one of its regions fires, the function returns the
    value of that region's return, and each part of the result is a
    NaN, an infinity or a finite number. *)
Theorem dispatchers_total {libm : Libm} {kernel : Kernel} :
  dispatches cerf cerf_fires cerf_returns
  /\ dispatches cerfc cerfc_fires cerfc_returns
  /\ dispatches cdawson cdawson_fires cdawson_returns
  /\ dispatches (fun a : R * R * R => let '(x, sigma, gamma) := a in
                                      voigt x sigma gamma)
                voigt_fires voigt_returns
  /\ dispatches erfi erfi_fires erfi_returns
  /\ dispatches dawson dawson_fires dawson_returns
  /\ (forall z : cmplx,
        cclassified (cerf z) /\ cclassified (cerfc z)
        /\ cclassified (cdawson z))
  /\ (forall x sigma gamma : R,
        classified (voigt x sigma gamma) /\ classified (erfi x)
        /\ classified (dawson x)).
Proof.
  split; [ apply cerf_dispatches | ].
  split; [ apply cerfc_dispatches | ].
  split; [ apply cdawson_dispatches | ].
  split; [ apply voigt_dispatches | ].
  split; [ apply erfi_dispatches | ].
  split; [ apply dawson_dispatches | ].
  unfold cclassified.
  split; intros; repeat split; apply classified_all.
Qed.

(* ================================================================== *)
(** ** The wrappers and the axis cases *)
(* ================================================================== *)

Section Axes.

Context {libm : Libm} {kernel : Kernel}.

(** C10.  [cerfcx(x + iy)] is the kernel [w_of_z] at [-y + ix], for
    every pair of doubles: no test is made on the argument, so NaNs,
    infinities and zeros reach the kernel as they are, the imaginary
    part with its sign changed (a [+0] becomes the real part [-0]). *)
Theorem cerfcx_is_w_of_iz (x y : R) :
  cerfcx (CNUM x y) = w_of_z (CNUM (- y) x)
  /\ cerfcx (CNUM NaN y) = w_of_z (CNUM (- y) NaN)
  /\ cerfcx (CNUM x NaN) = w_of_z (CNUM NaN x)
  /\ cerfcx (CNUM x Inf) = w_of_z (CNUM (S754_infinity true) x)
  /\ cerfcx (CNUM x (D 0)) = w_of_z (CNUM (S754_zero true) x).
Proof.
  unfold cerfcx, pnfft_creal, pnfft_cimag, CNUM. cbn [fst snd].
  repeat split.
Qed.

(** C6.  On the real axis, that is for [y] a zero of either sign,
    [cerf(x + iy)] has real part [erf(x)] and imaginary part [y]
    itself, the zero with the sign it came with. *)
Theorem cerf_real_axis (x y : R) :
  (y ==? D 0) = true ->
  cerf (CNUM x y) = CNUM (erf x) y /\ exists s : bool, y = S754_zero s.
Proof.
  intros Hy. split.
  - unfold cerf, pnfft_creal, pnfft_cimag, CNUM. cbn [fst snd].
    now rewrite Hy.
  - now apply eqb_zero_iff.
Qed.

(** C7.  With [x] a zero of either sign and [y] NaN, and [erfcx] and
    [exp] sending NaN to NaN, [cdawson(x + iy)] is [(x, NaN)]: a zero
    real part and a NaN imaginary part. *)
Theorem cdawson_imag_axis_nan (x : R) :
  pnfft_exp NaN = NaN ->
  erfcx NaN = NaN ->
  (x ==? D 0) = true ->
  cdawson (CNUM x NaN) = CNUM x NaN /\ exists s : bool, x = S754_zero s.
Proof.
  intros Hexp Herfcx Hx. split.
  - rewrite (dispatches_at _ _ _ cdawson_dispatches _ Daw_imag_erfcx).
    + unfold cdawson_returns, cdawson_imag_erfcx, pnfft_creal, pnfft_cimag,
        CNUM.
      cbn [fst snd].
      change (NaN * NaN) with NaN.
      change (D 0 <=? NaN) with false. cbv iota.
      change (- NaN) with NaN.
      rewrite Hexp, Herfcx.
      reflexivity.
    + unfold cdawson_fires, pnfft_creal, pnfft_cimag, CNUM.
      cbn [fst snd]. rewrite Hx. reflexivity.
  - now apply eqb_zero_iff.
Qed.

(** C8.  With both widths zero (of either sign) [voigt] is the delta
    function: [+Inf] at [x = +0] and [x = -0], and [+0] at every [x]
    that C's [==] does not equate to 0. *)
Theorem voigt_delta (s t : bool) :
  (forall u : bool,
      voigt (S754_zero u) (S754_zero s) (S754_zero t) = Inf)
  /\ (forall x : R,
        (x ==? D 0) = false ->
        voigt x (S754_zero s) (S754_zero t) = S754_zero false)
  /\ voigt (D 0) (D 0) (D 0) = Inf.
Proof.
  split; [ | split ].
  - intros u. destruct u, s, t; reflexivity.
  - intros x Hx. unfold voigt.
    replace (if S754_zero t <? D 0 then - S754_zero t else S754_zero t)
      with (S754_zero t) by (destruct t; reflexivity).
    replace (if S754_zero s <? D 0 then - S754_zero s else S754_zero s)
      with (S754_zero s) by (destruct s; reflexivity).
    cbv zeta.
    replace (S754_zero t ==? D 0) with true by (destruct t; reflexivity).
    replace (S754_zero s ==? D 0) with true by (destruct s; reflexivity).
    now rewrite Hx.
  - reflexivity.
Qed.

(** C9.  [erfi] saturates by the sign of [x] once [x*x > 720]: [+Inf]
    for [x > 0], [-Inf] otherwise, and then [x < 0]; for [x*x <= 720]
    it is [exp(x*x) * im_w_of_x(x)].  The product [x*x] is the rounded
    one the code compares. *)
Theorem erfi_saturates (x : R) :
  ((x * x >? D 720) = true -> (x >? D 0) = true -> erfi x = Inf)
  /\ ((x * x >? D 720) = true -> (x >? D 0) = false ->
      erfi x = - Inf /\ (x <? D 0) = true)
  /\ ((x * x <=? D 720) = true ->
      erfi x = pnfft_exp (x * x) * im_w_of_x x).
Proof.
  unfold erfi. split; [ | split ].
  - intros H1 H2. now rewrite H1, H2.
  - intros H1 H2. split.
    + now rewrite H1, H2.
    + destruct x as [s|s| |s m e]; try discriminate H1;
        destruct s; try reflexivity; discriminate H2.
  - intros H. now rewrite (SFleb_not_ltb _ _ H).
Qed.

(** C5.  Off both axes, when [(y - x) * (x + y) < -750] the result of
    [cerf] is the constant 1 for [x >= 0] and -1 for [x < 0], with
    imaginary part [+0]; one of the two holds, and no external function
    is evaluated. *)
Theorem cerf_underflow (x y : R) :
  (y ==? D 0) = false ->
  (x ==? D 0) = false ->
  ((y - x) * (x + y) <? - D 750) = true ->
  ((x >=? D 0) = true -> cerf (CNUM x y) = CNUM (D 1) (S754_zero false))
  /\ ((x <? D 0) = true ->
      cerf (CNUM x y) = CNUM (- D 1) (S754_zero false))
  /\ ((x >=? D 0) = true \/ (x <? D 0) = true).
Proof.
  intros Hy Hx Hu.
  assert (Hc : cerf (CNUM x y)
               = CofR (if x >=? D 0 then D 1.0 else - D 1.0)).
  { rewrite (dispatches_at _ _ _ cerf_dispatches _ Erf_underflow).
    - reflexivity.
    - unfold cerf_fires, pnfft_creal, pnfft_cimag, CNUM. cbn [fst snd].
      now rewrite Hy, Hx, Hu. }
  split; [ | split ].
  - intros Hge. rewrite Hc, Hge. reflexivity.
  - intros Hlt. rewrite Hc, (SFltb_not_leb _ _ Hlt). reflexivity.
  - destruct (D 0 <=? x) eqn:Hge; [ now left | right ].
    apply SFleb_total; trivial.
    destruct x; try reflexivity.
    rewrite Rsub_nan_r in Hu. discriminate Hu.
Qed.

End Axes.

(* ================================================================== *)
(** ** NaN arguments *)
(* ================================================================== *)

(** Where a NaN part of the argument goes, when [exp], [erf] and
    [im_w_of_x] send NaN to NaN. *)

Section NaNs.

Context {libm : Libm} {kernel : Kernel}.

Hypothesis exp_nan : pnfft_exp NaN = NaN.
Hypothesis erf_nan : erf NaN = NaN.
Hypothesis im_w_of_x_nan : im_w_of_x NaN = NaN.

Lemma erfi_nan : erfi NaN = NaN.
Proof.
  unfold erfi. change (NaN * NaN) with NaN.
  change (D 720 <? NaN) with false. cbv iota.
  now rewrite exp_nan.
Qed.

Lemma dawson_nan : dawson NaN = NaN.
Proof. unfold dawson. rewrite im_w_of_x_nan. reflexivity. Qed.

Lemma cerf_nan_real (y : R) :
  cerf (CNUM NaN y) = CNUM NaN (if y ==? D 0 then y else NaN).
Proof.
  unfold cerf, pnfft_creal, pnfft_cimag, CNUM. cbn [fst snd].
  destruct (y ==? D 0) eqn:Hy.
  - now rewrite erf_nan.
  - change (NaN ==? D 0) with false. cbv iota.
    rewrite Rsub_nan_r. change (NaN * (NaN + y)) with NaN.
    change (NaN <? - D 750) with false.
    change (D 0 <=? NaN) with false.
    change (- D 8e-2 <? NaN) with false.
    cbv iota. cbv zeta. cbn [isnan andthen]. reflexivity.
Qed.

Lemma cerf_nan_imag (x : R) :
  cerf (CNUM x NaN) = CNUM (if x ==? D 0 then x else NaN) NaN.
Proof.
  unfold cerf, pnfft_creal, pnfft_cimag, CNUM. cbn [fst snd].
  change (NaN ==? D 0) with false. cbv iota.
  destruct (x ==? D 0) eqn:Hx.
  - unfold cerf_imag_axis, CNUM. change (NaN * NaN) with NaN.
    change (D 720 <? NaN) with false. cbv iota. now rewrite exp_nan.
  - rewrite Rsub_nan_l, Rmul_nan_l, Rmul_nan_r.
    change (NaN <? - D 750) with false.
    change (pnfft_fabs NaN <? D 1e-2) with false.
    change (pnfft_fabs NaN <? D 5e-3) with false.
    cbv iota zeta. cbn [andb].
    unfold cerf_mirror_pos, cerf_mirror_neg. rewrite exp_nan.
    destruct (D 0 <=? x), (x <? D 8e-2), (- D 8e-2 <? x), (isnan x);
      reflexivity.
Qed.

Lemma cerfc_nan_imag (x : R) :
  (x ==? D 0) = true -> cerfc (CNUM x NaN) = CNUM (D 1) NaN.
Proof.
  intros Hx. unfold cerfc, pnfft_creal, pnfft_cimag, CNUM. cbn [fst snd].
  rewrite Hx. change (NaN * NaN) with NaN.
  change (D 720 <? NaN) with false. cbv iota.
  now rewrite exp_nan.
Qed.

Lemma cerfc_nan_real (y : R) :
  (y ==? D 0) = true -> cerfc (CNUM NaN y) = CNUM NaN (- y).
Proof.
  intros Hy. unfold cerfc, pnfft_creal, pnfft_cimag, CNUM. cbn [fst snd].
  rewrite Hy. change (NaN ==? D 0) with false.
  change (- NaN * NaN) with NaN. change (NaN * NaN) with NaN.
  change (D 750 <? NaN) with false. change (D 0 <=? NaN) with false.
  cbv iota. now rewrite exp_nan.
Qed.

Lemma cdawson_nan_imag (x : R) :
  cdawson (CNUM x NaN) = CNUM (if x ==? D 0 then x else NaN) NaN.
Proof.
  unfold cdawson, pnfft_creal, pnfft_cimag, CNUM. cbn [fst snd].
  change (NaN ==? D 0) with false. cbv iota.
  destruct (x ==? D 0) eqn:Hx.
  - change (NaN * NaN) with NaN. cbv zeta.
    change (NaN <? D 2.5e-5) with false. cbv iota.
    unfold cdawson_imag_erfcx, CNUM.
    change (D 0 <=? NaN) with false. cbv iota.
    now rewrite exp_nan, Rsub_nan_r.
  - cbv zeta. change (D 0 <=? NaN) with false.
    change (- D 5e-3 <? NaN) with false. cbv iota.
    cbn [isnan andthen]. reflexivity.
Qed.

Lemma cdawson_nan_real (y : R) :
  (y ==? D 0) = true -> cdawson (CNUM NaN y) = CNUM NaN (- y).
Proof.
  intros Hy. unfold cdawson, pnfft_creal, pnfft_cimag, CNUM. cbn [fst snd].
  now rewrite Hy, im_w_of_x_nan.
Qed.

Lemma voigt_nan_sigma (x gamma : R) : voigt x NaN gamma = NaN.
Proof.
  unfold voigt. change (NaN <? D 0) with false. cbv iota zeta.
  change (NaN ==? D 0) with false.
  destruct (_ ==? D 0); cbv iota; apply Rdiv_nan_r.
Qed.

Lemma voigt_nan_gamma (x sigma : R) :
  (sigma ==? D 0) = true -> voigt x sigma NaN = NaN.
Proof.
  intros Hs. unfold voigt. change (NaN <? D 0) with false. cbv iota zeta.
  change (NaN ==? D 0) with false. cbv iota.
  destruct (sigma <? D 0); rewrite ?eqb_zero_opp, Hs; reflexivity.
Qed.

(** A NaN abscissa survives both closed forms. *)
Lemma voigt_nan_x_closed_forms (sigma gamma : R) :
  let gam := if gamma <? D 0 then - gamma else gamma in
  let sig := if sigma <? D 0 then - sigma else sigma in
  negb (gam ==? D 0) || negb (sig ==? D 0) = true ->
  (gam ==? D 0) || (sig ==? D 0) = true ->
  voigt NaN sigma gamma = NaN.
Proof.
  cbv zeta. unfold voigt. cbv zeta.
  destruct (_ ==? D 0), (_ ==? D 0); cbn [negb orb]; try discriminate;
    intros _ _.
  - change (- NaN * NaN) with NaN.
    now rewrite !Rdiv_nan_l, exp_nan.
  - change (NaN * NaN) with NaN. now rewrite Radd_nan_l, Rdiv_nan_r.
Qed.


(** The two returns guarded by [isnan] are reached off the axes only,
    so the zero in [y == 0 ? 0 : NaN] and in [x == 0 ? 0 : NaN] is never
    returned. *)
Lemma isnan_returns (z : cmplx) :
  (cerf_fires Erf_nan z = true -> cerf_returns Erf_nan z = CNUM NaN NaN)
  /\ (cdawson_fires Daw_nan z = true ->
      cdawson_returns Daw_nan z = CNUM NaN NaN).
Proof.
  destruct z as [x y].
  unfold cerf_fires, cerf_returns, cdawson_fires, cdawson_returns,
    pnfft_creal, pnfft_cimag.
  cbn [fst snd]. cbv zeta.
  split.
  - destruct (y ==? D 0); [ discriminate | reflexivity ].
  - destruct (y ==? D 0); [ discriminate | ].
    destruct (x ==? D 0); [ discriminate | reflexivity ].
Qed.

(** C1 (at the argument where the code departs from it).  With both
    widths zero [voigt] answers [+0] to a NaN abscissa: [x ? 0 : Inf]
    takes NaN for true.  The NaN is lost, whereas the return for a
    non-zero [gamma] keeps it. *)
Theorem voigt_nan_abscissa :
  voigt NaN (D 0) (D 0) = S754_zero false
  /\ voigt NaN (D 0) (D 1) = NaN.
Proof. split; reflexivity. Qed.

End NaNs.

(* ================================================================== *)
(** ** Equality up to the sign of zero, and parity *)
(* ================================================================== *)

Lemma SFeqb_refl_or_nan (a : R) : (a ==? a) = true \/ a = NaN.
Proof.
  destruct a as [s|s| |s m e]; simpl; auto; left.
  - destruct s; reflexivity.
  - unfold SFeqb; simpl. rewrite Z.compare_refl.
    destruct s; rewrite Pos.compare_cont_refl; reflexivity.
Qed.

Lemma SFeqb_true (a b : R) :
  (a ==? b) = true -> a = b \/ exists s t, a = S754_zero s /\ b = S754_zero t.
Proof.
  unfold SFeqb.
  destruct a as [s|s| |s m e], b as [t|t| |t n f]; simpl; try discriminate;
    try (destruct s; discriminate); try (destruct t; discriminate).
  - intros _. right. now exists s, t.
  - destruct s, t; try discriminate; now left.
  - destruct s, t; try discriminate;
      destruct (Z.compare e f) eqn:Ez; try discriminate;
      destruct (Pos.compare_cont Eq m n) eqn:Em; try discriminate;
      intros _; left;
      apply Z.compare_eq in Ez; apply Pos.compare_eq in Em; now subst.
Qed.

Lemma feq_same (a b : R) : feq a b <-> same a b.
Proof.
  split.
  - intros [H | [Ha Hb]].
    + destruct (SFeqb_true _ _ H) as [-> | (s & t & -> & ->)]; auto.
    + destruct a, b; try discriminate; auto.
  - intros [c | s t].
    + destruct (SFeqb_refl_or_nan c) as [H | ->]; [ now left | now right ].
    + now left.
Qed.

Lemma same_sym (a b : R) : same a b -> same b a.
Proof. intros []; auto. Qed.

Lemma same_trans (a b c : R) : same a b -> same b c -> same a c.
Proof. intros [] H; inversion H; subst; auto. Qed.

Lemma same_opp (a b : R) : same a b -> same (- a) (- b).
Proof. intros []; simpl; auto. Qed.

Lemma same_mul (a a' b b' : R) : same a a' -> same b b' -> same (a * b) (a' * b').
Proof.
  intros [c | s t] [d | u v]; auto.
  - destruct c as [ | | | ]; simpl; auto.
  - destruct d as [ | | | ]; simpl; auto.
  - simpl; auto.
Qed.

Lemma same_add (a a' b b' : R) : same a a' -> same b b' -> same (a + b) (a' + b').
Proof.
  intros [c | s t] [d | u v]; auto.
  - destruct c as [w| | | ]; simpl; auto. destruct w, u, v; simpl; auto.
  - destruct d as [w| | | ]; simpl; auto. destruct w, s, t; simpl; auto.
  - destruct s, t, u, v; simpl; auto.
Qed.

Lemma same_sub (a a' b b' : R) : same a a' -> same b b' -> same (a - b) (a' - b').
Proof.
  intros [c | s t] [d | u v]; auto.
  - destruct c as [w| | | ]; simpl; auto. destruct w, u, v; simpl; auto.
  - destruct d as [w| | | ]; simpl; auto. destruct w, s, t; simpl; auto.
  - destruct s, t, u, v; simpl; auto.
Qed.

Lemma cond_Zopp_negb (s : bool) (m : Z) : cond_Zopp (negb s) m = Z.opp (cond_Zopp s m).
Proof. destruct s; simpl; lia. Qed.

Lemma binary_normalize_opp (m e : Z) :
  same (binary_normalize prec emax (Z.opp m) e false)
       (- binary_normalize prec emax m e false).
Proof.
  destruct m as [ | p | p]; simpl.
  - auto.
  - rewrite <- binary_round_opp. simpl. auto.
  - rewrite <- (Ropp_involutive (binary_round prec emax false p e)).
    rewrite <- binary_round_opp. simpl. auto.
Qed.

Lemma Radd_opp_opp (a b : R) : same (- a + - b) (- (a + b)).
Proof.
  destruct a as [s|s| |s m e], b as [t|t| |t n f];
    try (destruct s, t; simpl; auto; fail); simpl; auto.
  rewrite !cond_Zopp_negb, <- Z.opp_add_distr.
  apply binary_normalize_opp.
Qed.

Ltac normalize_opp :=
  rewrite ?cond_Zopp_negb;
  match goal with
  | |- same (binary_normalize _ _ ?M _ _) (- binary_normalize _ _ ?N _ _) =>
      replace M with (Z.opp N) by lia
  end;
  apply binary_normalize_opp.

Lemma Rsub_opp_opp (a b : R) : same (- a - - b) (- (a - b)).
Proof.
  destruct a as [s|s| |s m e], b as [t|t| |t n f];
    try (destruct s, t; simpl; auto; fail); simpl; auto.
  normalize_opp.
Qed.

Lemma Rsub_swap (a b : R) : same (b - a) (- (a - b)).
Proof.
  destruct a as [s|s| |s m e], b as [t|t| |t n f];
    try (destruct s, t; simpl; auto; fail); simpl; auto.
  rewrite (Z.min_comm f e).
  normalize_opp.
Qed.

Lemma ceq_same (z w : cmplx) : ceq z w <-> same (fst z) (fst w) /\ same (snd z) (snd w).
Proof. unfold ceq. now rewrite !feq_same. Qed.

(** The sign tests of a number and of its negation. *)
Lemma upper_opp (y : R) :
  (y ==? D 0) = false -> isnan y = false ->
  (- y >=? D 0) = negb (y >=? D 0).
Proof.
  rewrite D_zero.
  destruct y as [s|s| |s m e]; try discriminate; destruct s; reflexivity.
Qed.

Lemma near_opp (y c : R) :
  (if - y >=? D 0 then - y <? c else - y >? - c)
  = (if y >=? D 0 then y <? c else y >? - c).
Proof.
  destruct (isnan y) eqn:Hn.
  { destruct y; try discriminate. rewrite D_zero. destruct c; reflexivity. }
  destruct (y ==? D 0) eqn:Hz.
  { apply eqb_zero_iff in Hz. destruct Hz as [s ->].
    rewrite D_zero. destruct s, c as [ | | | ]; reflexivity. }
  rewrite (upper_opp y Hz Hn).
  destruct (D 0 <=? y); simpl.
  - apply SFltb_opp.
  - rewrite <- (SFltb_opp y (- c)). now rewrite Ropp_involutive.
Qed.

Lemma Rmul_m2_opp_opp (x y : R) : - D 2 * - x * - y = - D 2 * x * y.
Proof. now rewrite (Rmul_opp_r (- D 2) x), Rmul_opp_opp. Qed.

Lemma cdawson_fires_mirror (b : cdawson_branch) (z : cmplx) :
  cdawson_fires (cdawson_mirror b) (Cneg z) = cdawson_fires b z.
Proof.
  destruct z as [x y].
  unfold cdawson_fires, Cneg, pnfft_creal, pnfft_cimag. cbn [fst snd]. cbv zeta.
  rewrite !eqb_zero_opp, !Rmul_m2_opp_opp, !Rmul_opp_opp, !fabs_opp,
    !isnan_opp, !near_opp.
  destruct (isnan y) eqn:Hn.
  { destruct y; try discriminate.
    destruct b; simpl; rewrite ?andb_false_r; reflexivity. }
  destruct (y ==? D 0) eqn:Hz.
  { destruct b; reflexivity. }
  rewrite (upper_opp y Hz Hn).
  destruct b; cbn [cdawson_mirror]; try reflexivity;
    destruct (D 0 <=? y); cbn [negb andb]; rewrite ?andb_false_r, ?andb_true_r; try reflexivity.
Qed.

Lemma odd_add (a a' b b' : R) :
  same a' (- a) -> same b' (- b) -> same (a' + b') (- (a + b)).
Proof.
  intros Ha Hb. eapply same_trans; [ apply same_add; eassumption | ].
  apply Radd_opp_opp.
Qed.

Lemma odd_sub (a a' b b' : R) :
  same a' (- a) -> same b' (- b) -> same (a' - b') (- (a - b)).
Proof.
  intros Ha Hb. eapply same_trans; [ apply same_sub; eassumption | ].
  apply Rsub_opp_opp.
Qed.

Lemma odd_mul_l (a a' b b' : R) :
  same a' (- a) -> same b' b -> same (a' * b') (- (a * b)).
Proof. intros Ha Hb. rewrite <- Rmul_opp_l. now apply same_mul. Qed.

Lemma odd_mul_r (a a' b b' : R) :
  same a' a -> same b' (- b) -> same (a' * b') (- (a * b)).
Proof. intros Ha Hb. rewrite <- Rmul_opp_r. now apply same_mul. Qed.

Lemma even_mul (a a' b b' : R) :
  same a' (- a) -> same b' (- b) -> same (a' * b') (a * b).
Proof. intros Ha Hb. rewrite <- (Rmul_opp_opp a b). now apply same_mul. Qed.

(** Follow the shape of an expression in which every odd quantity has
    changed sign. *)
Ltac parity :=
  lazymatch goal with
  | |- same ?a ?a => apply same_refl
  | |- same (_ + _) (- (_ + _)) => apply odd_add; parity
  | |- same (_ - _) (- (_ - _)) => apply odd_sub; parity
  | |- same (_ * _) (- (_ * _)) =>
      first [ solve [ apply odd_mul_l; parity ]
            | solve [ apply odd_mul_r; parity ] ]
  | |- same (_ + _) (_ + _) => apply same_add; parity
  | |- same (_ - _) (_ - _) => apply same_sub; parity
  | |- same (_ * _) (_ * _) =>
      first [ solve [ apply same_mul; parity ]
            | solve [ apply even_mul; parity ] ]
  | |- same _ _ => assumption
  end.

Lemma ceq_refl (z : cmplx) : ceq z z.
Proof. apply ceq_same. split; apply same_refl. Qed.

Lemma ceq_trans (z w v : cmplx) : ceq z w -> ceq w v -> ceq z v.
Proof.
  rewrite !ceq_same. intros [H1 H2] [H3 H4].
  split; eapply same_trans; eassumption.
Qed.

Lemma Cneg_involutive (z : cmplx) : Cneg (Cneg z) = z.
Proof. destruct z. unfold Cneg. cbn [fst snd]. now rewrite !Ropp_involutive. Qed.

Lemma mRe_z2_opp (x y : R) :
  same ((- y - - x) * (- x + - y)) ((y - x) * (x + y)).
Proof.
  apply even_mul; [ apply Rsub_opp_opp | apply Radd_opp_opp ].
Qed.

Section Odd.

Context {libm : Libm} {kernel : Kernel}.

Hypothesis im_w_of_x_odd : forall x : R, im_w_of_x (- x) = - im_w_of_x x.
Hypothesis exp_nan : pnfft_exp NaN = NaN.
Hypothesis cexp_feq :
  forall a a' b : R,
    feq a a' -> ceq (pnfft_cexp (CNUM a b)) (pnfft_cexp (CNUM a' b)).
Hypothesis Cmul_opp_l :
  forall z w : cmplx, ceq (Cneg z :*: w) (Cneg (z :*: w)).
Hypothesis Cmul_ceq :
  forall z z' w w' : cmplx,
    ceq z z' -> ceq w w' -> ceq (z :*: w) (z' :*: w').

Lemma cdawson_returns_exact (b : cdawson_branch) (z : cmplx) :
  match b with
  | Daw_real_axis | Daw_imag_taylor | Daw_realaxis_cf6 | Daw_realaxis_cf1 =>
      cdawson_returns b (Cneg z) = Cneg (cdawson_returns b z)
  | _ => True
  end.
Proof.
  destruct z as [x y].
  destruct b; try exact I;
    unfold cdawson_returns, Cneg, pnfft_creal, pnfft_cimag, CNUM;
    cbn [fst snd]; cbv zeta.
  - now rewrite im_w_of_x_odd, Rmul_opp_r.
  - unfold cdawson_imag_taylor, CNUM.
    now rewrite Rmul_opp_opp, Rmul_opp_l.
  - unfold cdawson_cf6, RmulC, CNUM. cbn [fst snd].
    now rewrite !Rmul_opp_opp, !Rmul_opp_l, !Rmul_opp_r.
  - unfold cdawson_cf1, CNUM. cbv zeta.
    now rewrite !Rmul_opp_opp, Rdiv_opp_r, Rmul_opp_l, Rdiv_opp_l.
Qed.

Lemma rotate_odd (res res' : cmplx) :
  ceq res' (Cneg res) -> ceq (cdawson_rotate res') (Cneg (cdawson_rotate res)).
Proof.
  destruct res as [a b], res' as [a' b'].
  rewrite !ceq_same. unfold cdawson_rotate, RmulC, Cneg, CNUM, pnfft_creal,
    pnfft_cimag. cbn [fst snd].
  intros [Ha Hb]. split.
  - apply odd_mul_r; [ apply same_refl | ].
    now apply same_opp.
  - apply odd_mul_r; [ apply same_refl | assumption ].
Qed.

Lemma Csub_swap (z w : cmplx) : ceq (w :-: z) (Cneg (z :-: w)).
Proof.
  apply ceq_same. unfold Csub, Cneg. cbn [fst snd].
  split; apply Rsub_swap.
Qed.

Lemma ceq_Csub (z z' w w' : cmplx) :
  ceq z z' -> ceq w w' -> ceq (z :-: w) (z' :-: w').
Proof.
  rewrite !ceq_same. unfold Csub. cbn [fst snd].
  intros [H1 H2] [H3 H4]. split; now apply same_sub.
Qed.

Lemma ceq_RaddC (r : R) (w w' : cmplx) : ceq w w' -> ceq (r +: w) (r +: w').
Proof.
  rewrite !ceq_same. unfold RaddC. cbn [fst snd].
  intros [H1 H2]. split; [ apply same_add; [ apply same_refl | assumption ] | assumption ].
Qed.

Lemma ceq_CmulR (w w' : cmplx) (r : R) : ceq w w' -> ceq (w :* r) (w' :* r).
Proof.
  rewrite !ceq_same. unfold CmulR. cbn [fst snd].
  intros [H1 H2]. split; (apply same_mul; [ assumption | apply same_refl ]).
Qed.

Lemma mz2_opp (x y : R) :
  ceq (CNUM ((- y - - x) * (- x + - y)) (- D 2 * - x * - y))
      (CNUM ((y - x) * (x + y)) (- D 2 * x * y)).
Proof.
  apply ceq_same. unfold CNUM. cbn [fst snd]. split.
  - apply mRe_z2_opp.
  - rewrite Rmul_m2_opp_opp. apply same_refl.
Qed.

Lemma cexp_mz2_opp (x y : R) :
  ceq (pnfft_cexp (CNUM ((- y - - x) * (- x + - y)) (- D 2 * - x * - y)))
      (pnfft_cexp (CNUM ((y - x) * (x + y)) (- D 2 * x * y))).
Proof.
  rewrite Rmul_m2_opp_opp. apply cexp_feq. apply feq_same, mRe_z2_opp.
Qed.

Lemma cdawson_returns_mirror (b : cdawson_branch) (z : cmplx) :
  cdawson_fires b z = true ->
  ceq (cdawson_returns (cdawson_mirror b) (Cneg z))
      (Cneg (cdawson_returns b z)).
Proof.
  intros Hb.
  pose proof (cdawson_returns_exact b z) as Hex.
  destruct b; cbn [cdawson_mirror];
    try (rewrite Hex; apply ceq_refl); clear Hex;
    destruct z as [x y];
    unfold cdawson_fires, pnfft_creal, pnfft_cimag in Hb; cbn [fst snd] in Hb;
    unfold cdawson_returns, pnfft_creal, pnfft_cimag;
    change (Cneg (x, y)) with (- x, - y); cbn [fst snd]; cbv zeta.
  - (* imaginary axis, erfcx *)
    unfold cdawson_imag_erfcx, CNUM. apply ceq_same. cbn [fst snd].
    split; [ apply same_refl | ].
    rewrite Rmul_opp_opp, Ropp_involutive.
    apply odd_mul_r; [ apply same_refl | ].
    destruct (isnan y) eqn:Hn.
    + destruct y; try discriminate.
      change (D 0 <=? - S754_nan) with false.
      change (D 0 <=? S754_nan) with false. cbv iota.
      change (S754_nan * S754_nan) with NaN.
      rewrite exp_nan, !Rsub_nan_r. apply same_refl.
    + destruct (y ==? D 0) eqn:Hz; [ discriminate Hb | ].
      rewrite (upper_opp y Hz Hn).
      destruct (D 0 <=? y); cbn [negb]; apply Rsub_swap.
  - (* taylor *)
    unfold cdawson_taylor.
    eapply ceq_trans; [ | apply Cmul_opp_l ].
    apply Cmul_ceq; [ apply ceq_refl | ].
    apply ceq_RaddC, Cmul_ceq; [ apply mz2_opp | ].
    apply ceq_RaddC, ceq_CmulR, mz2_opp.
  - (* real axis, Taylor in y around D(x) *)
    unfold cdawson_taylor_D, CNUM. cbv zeta.
    rewrite im_w_of_x_odd, !Rmul_opp_opp, (Rmul_opp_r spi2).
    apply ceq_same. unfold Cneg. cbn [fst snd].
    split; parity.
  - (* direct, upper half plane *)
    apply rotate_odd.
    change (Cneg (- x, - y)) with (Cneg (Cneg (x, y))).
    rewrite Cneg_involutive.
    eapply ceq_trans; [ | apply Csub_swap ].
    apply ceq_Csub; [ apply ceq_refl | apply cexp_mz2_opp ].
  - (* NaN *)
    apply ceq_same. unfold CNUM, Cneg. cbn [fst snd].
    rewrite eqb_zero_opp.
    split; [ | apply same_refl ].
    destruct (x ==? D 0); [ rewrite D_zero; apply same_zero | apply same_refl ].
  - (* direct, lower half plane *)
    apply rotate_odd.
    eapply ceq_trans; [ | apply Csub_swap ].
    apply ceq_Csub; [ apply cexp_mz2_opp | apply ceq_refl ].
Qed.

(** C3.  [cdawson] is odd.  Let [im_w_of_x] be odd, let [exp] send NaN
    to NaN, let [cexp] not depend on the sign of a zero real part, and
    let the product of complex values commute with negation of its
    left factor and respect [ceq].  Then for every [z], NaN and the
    infinities included, [cdawson(-z)] and [-cdawson(z)] agree part by
    part as C's [==] has it, two NaNs counting as agreeing.  In the
    regions that call no external function but [im_w_of_x] (the real
    axis, the Taylor series on the imaginary axis, the two
    continued-fraction regimes) they are the same doubles, down to the
    sign of a zero. *)
Theorem cdawson_odd :
  (forall z : cmplx, ceq (cdawson (Cneg z)) (Cneg (cdawson z)))
  /\ (forall (z : cmplx) (b : cdawson_branch),
        cdawson_fires b z = true ->
        b = Daw_real_axis \/ b = Daw_imag_taylor
        \/ b = Daw_realaxis_cf6 \/ b = Daw_realaxis_cf1 ->
        cdawson (Cneg z) = Cneg (cdawson z)).
Proof.
  split.
  - intros z.
    destruct (cdawson_dispatches z) as (b & Hb & _ & Hr).
    rewrite Hr.
    rewrite (dispatches_at _ _ _ cdawson_dispatches (Cneg z)
               (cdawson_mirror b)).
    + now apply cdawson_returns_mirror.
    + now rewrite cdawson_fires_mirror.
  - intros z b Hb Hex.
    rewrite (dispatches_at _ _ _ cdawson_dispatches z b Hb).
    assert (Hm : cdawson_mirror b = b)
      by (destruct Hex as [-> | [-> | [-> | ->]]]; reflexivity).
    rewrite (dispatches_at _ _ _ cdawson_dispatches (Cneg z) b).
    + pose proof (cdawson_returns_exact b z) as H.
      destruct Hex as [-> | [-> | [-> | ->]]]; exact H.
    + rewrite <- Hm at 1. now rewrite cdawson_fires_mirror.
Qed.

End Odd.

(* ================================================================== *)
(** ** cdawson at x = 100 *)
(* ================================================================== *)

(** C4 (refuted as stated).  At [100 + 0i] and at [100 + 1e-4 i]
    neither continued-fraction return of [cdawson] is reached. *)
Lemma cdawson_100_not_continued_fraction :
  ~ (cdawson_fires Daw_realaxis_cf6 (CNUM (D 100) (D 0)) = true
     \/ cdawson_fires Daw_realaxis_cf1 (CNUM (D 100) (D 0)) = true)
  /\ ~ (cdawson_fires Daw_realaxis_cf6 (CNUM (D 100) (D 1e-4)) = true
        \/ cdawson_fires Daw_realaxis_cf1 (CNUM (D 100) (D 1e-4)) = true).
Proof.
  split; intros [H | H]; vm_compute in H; discriminate H.
Qed.

(** C4 (as the code has it).  At [x = 100]: with [y = 0] the result is
    the real-axis return [(spi2 * im_w_of_x(100), -0)]; with
    [y = 1e-4] the test [|-2xy| < 5e-3] fails and the result is the
    direct return built from [cexp(-z^2) - w_of_z(z)]; for [0 < y <
    5e-3] the continued-fraction return for [x^2 > 1600] is reached
    exactly when [|-2xy| < 5e-3], as at [y = 1e-5], where the result is
    the same pair of doubles whatever the kernels are, and each part of
    it is within relative error 1e-14 of the asymptotic expansion of
    Dawson's integral, summed up to the term of index 5 in exact
    rational arithmetic. *)
Theorem cdawson_at_100 {libm : Libm} {kernel : Kernel} :
  cdawson_fires Daw_real_axis (CNUM (D 100) (D 0)) = true
  /\ cdawson (CNUM (D 100) (D 0))
     = CNUM (spi2 * im_w_of_x (D 100)) (S754_zero true)
  /\ cdawson_fires Daw_direct_upper (CNUM (D 100) (D 1e-4)) = true
  /\ (pnfft_fabs (- D 2 * D 100 * D 1e-4) <? D 5e-3) = false
  /\ cdawson (CNUM (D 100) (D 1e-4))
     = cdawson_rotate
         (pnfft_cexp (CNUM ((D 1e-4 - D 100) * (D 100 + D 1e-4))
                           (- D 2 * D 100 * D 1e-4))
          :-: w_of_z (CNUM (D 100) (D 1e-4)))
  /\ (forall y : R,
        (y >? D 0) = true -> (y <? D 5e-3) = true ->
        cdawson_fires Daw_realaxis_cf6 (CNUM (D 100) y)
        = (pnfft_fabs (- D 2 * D 100 * y) <? D 5e-3))
  /\ cdawson_fires Daw_realaxis_cf6 (CNUM (D 100) (D 1e-5)) = true
  /\ cdawson (CNUM (D 100) (D 1e-5))
     = CNUM (D 0.0050002500375093285) (- D 5.0007501875656043e-10)
  /\ within (1 # 100000000000000)
            (Q_of_R (fst (cdawson (CNUM (D 100) (D 1e-5)))))
            (fst (dawson_asymptotic 5 (Q_of_R (D 100), Q_of_R (D 1e-5))))
  /\ within (1 # 100000000000000)
            (Q_of_R (snd (cdawson (CNUM (D 100) (D 1e-5)))))
            (snd (dawson_asymptotic 5 (Q_of_R (D 100), Q_of_R (D 1e-5)))).
Proof.
  split; [ vm_compute; reflexivity | ].
  split; [ now rewrite (dispatches_at _ _ _ cdawson_dispatches _
                          Daw_real_axis) | ].
  split; [ vm_compute; reflexivity | ].
  split; [ vm_compute; reflexivity | ].
  split; [ now rewrite (dispatches_at _ _ _ cdawson_dispatches _
                          Daw_direct_upper) | ].
  split.
  { intros y Hpos Hnear.
    unfold cdawson_fires, pnfft_creal, pnfft_cimag, CNUM. cbn [fst snd].
    cbv zeta.
    assert (Hz : (y ==? D 0) = false).
    { rewrite D_zero in *.
      destruct y as [s|s| |s m e]; try reflexivity; try discriminate Hpos;
        destruct s; reflexivity. }
    rewrite Hz, Hnear.
    assert (Hge : (D 0 <=? y) = true).
    { unfold SFleb. unfold SFltb in Hpos.
      destruct (SFcompare (D 0) y) as [[ | | ]|]; congruence. }
    rewrite Hge.
    change (D 100 ==? D 0) with false.
    change (pnfft_fabs (D 100) <? D 5e-3) with false.
    change (D 1600 <? D 100 * D 100) with true.
    change (D 25e14 <? D 100 * D 100) with false.
    cbn [negb andb].
    now rewrite !andb_true_r. }
  split; [ vm_compute; reflexivity | ].
  assert (Hv : cdawson (CNUM (D 100) (D 1e-5))
               = CNUM (D 0.0050002500375093285)
                      (- D 5.0007501875656043e-10)).
  { rewrite (dispatches_at _ _ _ cdawson_dispatches _ Daw_realaxis_cf6)
      by (vm_compute; reflexivity).
    vm_compute. reflexivity. }
  split; [ exact Hv | ].
  rewrite Hv. unfold within.
  split; apply Qle_bool_imp_le; vm_compute; reflexivity.
Qed.

(* ================================================================== *)
(** ** The theorems at concrete arguments *)
(* ================================================================== *)

(** The first-order stand-ins meet the hypotheses made on the external
    functions. *)

Lemma first_order_im_w_odd (x : R) :
  FirstOrder.im_w1 (- x) = - FirstOrder.im_w1 x.
Proof. unfold FirstOrder.im_w1. apply Rmul_opp_r. Qed.

Lemma first_order_cexp_feq (a a' b : R) :
  feq a a' ->
  ceq (FirstOrder.cexp1 (CNUM a b)) (FirstOrder.cexp1 (CNUM a' b)).
Proof.
  rewrite feq_same. intros H. apply ceq_same.
  unfold FirstOrder.cexp1, FirstOrder.exp1, RmulC, CNUM. cbn [fst snd].
  split; parity.
Qed.

Lemma first_order_Cmul_opp_l (z w : cmplx) :
  ceq (FirstOrder.Cmul4 (Cneg z) w) (Cneg (FirstOrder.Cmul4 z w)).
Proof.
  destruct z as [a b], w as [c d]. apply ceq_same.
  unfold FirstOrder.Cmul4, Cneg, CNUM. cbn [fst snd].
  split; parity.
Qed.

Lemma first_order_Cmul_ceq (z z' w w' : cmplx) :
  ceq z z' -> ceq w w' ->
  ceq (FirstOrder.Cmul4 z w) (FirstOrder.Cmul4 z' w').
Proof.
  rewrite !ceq_same. intros [H1 H2] [H3 H4].
  unfold FirstOrder.Cmul4, CNUM. cbn [fst snd].
  split; [ apply same_sub | apply same_add ]; now apply same_mul.
Qed.

(** [cerf(30 + i)]: [(1 - 30) * (30 + 1) = -899 < -750]. *)
Lemma cerf_underflow_witness :
  @cerf FirstOrder.libm FirstOrder.kernel (CNUM (D 30) (D 1))
  = CNUM (D 1) (S754_zero false).
Proof.
  apply (proj1 (@cerf_underflow FirstOrder.libm FirstOrder.kernel
                  (D 30) (D 1) eq_refl eq_refl eq_refl)).
  reflexivity.
Defined.

(** [cerf(1 - 0i)] keeps the negative zero. *)
Lemma cerf_real_axis_witness :
  @cerf FirstOrder.libm FirstOrder.kernel (CNUM (D 1) (S754_zero true))
  = CNUM (@erf FirstOrder.libm (D 1)) (S754_zero true)
  /\ exists s : bool, S754_zero true = S754_zero s.
Proof.
  apply (@cerf_real_axis FirstOrder.libm FirstOrder.kernel).
  reflexivity.
Defined.

(** [cdawson(-0 + i NaN)]. *)
Lemma cdawson_imag_axis_nan_witness :
  @cdawson FirstOrder.libm FirstOrder.kernel (CNUM (S754_zero true) NaN)
  = CNUM (S754_zero true) NaN
  /\ exists s : bool, S754_zero true = S754_zero s.
Proof.
  apply (@cdawson_imag_axis_nan FirstOrder.libm FirstOrder.kernel);
    reflexivity.
Defined.

(** [voigt(1, 0, 0)]. *)
Lemma voigt_delta_witness :
  @voigt FirstOrder.libm FirstOrder.kernel (D 1) (D 0) (D 0)
  = S754_zero false.
Proof.
  apply (proj1 (proj2 (@voigt_delta FirstOrder.libm FirstOrder.kernel
                         false false))).
  reflexivity.
Defined.

(** [erfi(30)]: [30 * 30 = 900 > 720]. *)
Lemma erfi_saturates_witness :
  @erfi FirstOrder.libm FirstOrder.kernel (D 30) = Inf.
Proof.
  apply (proj1 (@erfi_saturates FirstOrder.libm FirstOrder.kernel (D 30)));
    reflexivity.
Defined.

(** [cdawson] at [1 + 1e-3 i], in the region of the Taylor series around
    the real axis, and at its negation. *)
Lemma cdawson_odd_witness :
  ceq (@cdawson FirstOrder.libm FirstOrder.kernel
         (Cneg (CNUM (D 1) (D 1e-3))))
      (Cneg (@cdawson FirstOrder.libm FirstOrder.kernel
               (CNUM (D 1) (D 1e-3)))).
Proof.
  apply (proj1 (@cdawson_odd FirstOrder.libm FirstOrder.kernel
                  first_order_im_w_odd eq_refl first_order_cexp_feq
                  first_order_Cmul_opp_l first_order_Cmul_ceq)).
Defined.

(** [100 + 1e-5 i] lies in the continued-fraction region. *)
Lemma cdawson_at_100_witness :
  cdawson_fires Daw_realaxis_cf6 (CNUM (D 100) (D 1e-5))
  = (pnfft_fabs (- D 2 * D 100 * D 1e-5) <? D 5e-3).
Proof.
  pose proof (@cdawson_at_100 FirstOrder.libm FirstOrder.kernel) as H.
  destruct H as (_ & _ & _ & _ & _ & H & _).
  apply H; reflexivity.
Defined.

(* ================================================================== *)
(** ** Further properties: symmetries *)
(* ================================================================== *)

Lemma same_ltb_l (a a' c : R) : same a a' -> (a <? c) = (a' <? c).
Proof.
  intros [b | s t]; [ reflexivity | ].
  destruct c as [u|u| |u m e]; reflexivity.
Qed.

Lemma mRe_z2_ltb_opp (x y c : R) :
  ((- y - - x) * (- x + - y) <? c) = ((y - x) * (x + y) <? c).
Proof. apply same_ltb_l, mRe_z2_opp. Qed.

Lemma cerf_fires_mirror (b : cerf_branch) (z : cmplx) :
  cerf_fires (cerf_mirror b) (Cneg z) = cerf_fires b z.
Proof.
  destruct z as [x y].
  unfold cerf_fires, Cneg, pnfft_creal, pnfft_cimag. cbn [fst snd]. cbv zeta.
  rewrite !eqb_zero_opp, !Rmul_m2_opp_opp, !mRe_z2_ltb_opp, !fabs_opp,
    !isnan_opp, !near_opp.
  destruct (isnan x) eqn:Hn.
  { destruct x; try discriminate.
    destruct b; simpl; rewrite ?andb_false_r; reflexivity. }
  destruct (x ==? D 0) eqn:Hz.
  { destruct b; cbn [cerf_mirror]; rewrite ?andb_false_r; reflexivity. }
  rewrite (upper_opp x Hz Hn).
  destruct b; cbn [cerf_mirror]; try reflexivity;
    destruct (D 0 <=? x); cbn [negb andb];
    rewrite ?andb_false_r, ?andb_true_r; try reflexivity.
Qed.

(** Beyond the saturation threshold the sign tests of [y] and [-y]
    are opposite. *)
Lemma pos_opp (y : R) :
  (y * y >? D 720) = true -> (- y >? D 0) = negb (y >? D 0).
Proof.
  rewrite D_zero.
  destruct y as [s|s| |s m e]; try discriminate; intros _;
    destruct s; reflexivity.
Qed.

Section CerfOdd.

Context {libm : Libm} {kernel : Kernel}.

Hypothesis erf_odd : forall x : R, erf (- x) = - erf x.
Hypothesis im_w_of_x_odd : forall x : R, im_w_of_x (- x) = - im_w_of_x x.
Hypothesis exp_feq :
  forall a a' : R, feq a a' -> feq (pnfft_exp a) (pnfft_exp a').
Hypothesis Cmul_opp_l :
  forall z w : cmplx, ceq (Cneg z :*: w) (Cneg (z :*: w)).
Hypothesis Cmul_ceq :
  forall z z' w w' : cmplx,
    ceq z z' -> ceq w w' -> ceq (z :*: w) (z' :*: w').

Lemma cerf_returns_exact (b : cerf_branch) (z : cmplx) :
  cerf_fires b z = true ->
  match b with
  | Erf_real_axis | Erf_imag_axis =>
      cerf_returns b (Cneg z) = Cneg (cerf_returns b z)
  | _ => True
  end.
Proof.
  destruct z as [x y]. intros Hb.
  destruct b; try exact I;
    unfold cerf_returns, Cneg, pnfft_creal, pnfft_cimag, CNUM;
    cbn [fst snd]; cbv zeta.
  - now rewrite erf_odd.
  - unfold cerf_imag_axis, CNUM. rewrite Rmul_opp_opp.
    destruct (D 720 <? y * y) eqn:Hs.
    + rewrite (pos_opp y Hs). now destruct (D 0 <? y).
    + now rewrite im_w_of_x_odd, Rmul_opp_r.
Qed.

Lemma exp_mRe_z2_opp (x y : R) :
  same (pnfft_exp ((- y - - x) * (- x + - y)))
       (pnfft_exp ((y - x) * (x + y))).
Proof. apply feq_same, exp_feq, feq_same, mRe_z2_opp. Qed.

Lemma cerf_returns_mirror (b : cerf_branch) (z : cmplx) :
  cerf_fires b z = true ->
  ceq (cerf_returns (cerf_mirror b) (Cneg z)) (Cneg (cerf_returns b z)).
Proof.
  intros Hb.
  pose proof (cerf_returns_exact b z Hb) as Hex.
  destruct b; cbn [cerf_mirror];
    try (rewrite Hex; apply ceq_refl); clear Hex;
    destruct z as [x y];
    unfold cerf_fires, pnfft_creal, pnfft_cimag in Hb; cbn [fst snd] in Hb;
    unfold cerf_returns, pnfft_creal, pnfft_cimag;
    change (Cneg (x, y)) with (- x, - y); cbn [fst snd]; cbv zeta.
  - (* underflow *)
    cbv zeta in Hb.
    destruct (y ==? D 0); [ discriminate Hb | ].
    destruct (x ==? D 0) eqn:Hz; [ discriminate Hb | ].
    cbn [negb andb] in Hb.
    assert (Hn : isnan x = false).
    { destruct x; try reflexivity. rewrite Rsub_nan_r in Hb. discriminate Hb. }
    rewrite (upper_opp x Hz Hn).
    apply ceq_same. unfold CofR, Cneg. cbn [fst snd].
    split; [ | rewrite D_zero; apply same_zero ].
    destruct (D 0 <=? x); cbn [negb]; rewrite ?Ropp_involutive;
      apply same_refl.
  - (* taylor *)
    unfold cerf_taylor.
    eapply ceq_trans; [ | apply Cmul_opp_l ].
    apply Cmul_ceq; [ apply ceq_refl | ].
    repeat first [ apply mz2_opp | apply ceq_RaddC | apply ceq_CmulR
                 | apply Cmul_ceq ].
  - (* taylor_erfi *)
    unfold cerf_taylor_erfi, CNUM. cbv zeta.
    rewrite im_w_of_x_odd, !Rmul_opp_opp.
    apply ceq_same. unfold Cneg. cbn [fst snd].
    split; parity.
  - (* mirror, x >= 0 *)
    unfold cerf_mirror_neg, cerf_mirror_pos.
    rewrite Rmul_m2_opp_opp, Ropp_involutive.
    set (P := CNUM _ _ :*: w_of_z _).
    apply ceq_same. unfold CsubR, RsubC, RmulC, Cneg. cbn [fst snd].
    pose proof (exp_mRe_z2_opp x y) as He.
    split.
    + eapply same_trans; [ | apply Rsub_swap ].
      apply same_sub; [ | apply same_refl ].
      apply same_mul; [ exact He | apply same_refl ].
    + rewrite Ropp_involutive.
      apply same_mul; [ exact He | apply same_refl ].
  - (* NaN *)
    apply ceq_same. unfold CNUM, Cneg. cbn [fst snd].
    rewrite eqb_zero_opp.
    split; [ apply same_refl | ].
    destruct (y ==? D 0); [ rewrite D_zero; apply same_zero | apply same_refl ].
  - (* mirror, x < 0 *)
    unfold cerf_mirror_neg, cerf_mirror_pos.
    rewrite Rmul_m2_opp_opp, Ropp_involutive.
    set (P := CNUM _ _ :*: w_of_z _).
    apply ceq_same. unfold CsubR, RsubC, RmulC, Cneg. cbn [fst snd].
    pose proof (exp_mRe_z2_opp x y) as He.
    split.
    + eapply same_trans; [ | apply Rsub_swap ].
      apply same_sub; [ apply same_refl | ].
      apply same_mul; [ exact He | apply same_refl ].
    + apply same_opp.
      apply same_mul; [ exact He | apply same_refl ].
Qed.

(** X1.  [cerf] and [cerfi] are odd.  Let [erf] and [im_w_of_x] be
    odd, let [exp] give results that C's [==] equates on arguments it
    equates, and let the product of complex values commute with
    negation of its left factor and respect [ceq].  Then for every [z]
    the values at [-z] are the negated values at [z], part by part as
    C's [==] has it, two NaNs counting as agreeing; on both axes
    [cerf(-z)] and [-cerf(z)] are the same doubles. *)
Theorem cerf_odd :
  (forall z : cmplx, ceq (cerf (Cneg z)) (Cneg (cerf z)))
  /\ (forall z : cmplx, ceq (cerfi (Cneg z)) (Cneg (cerfi z)))
  /\ (forall (z : cmplx) (b : cerf_branch),
        cerf_fires b z = true ->
        b = Erf_real_axis \/ b = Erf_imag_axis ->
        cerf (Cneg z) = Cneg (cerf z)).
Proof.
  assert (Hodd : forall z : cmplx, ceq (cerf (Cneg z)) (Cneg (cerf z))).
  { intros z.
    destruct (cerf_dispatches z) as (b & Hb & _ & Hr).
    rewrite Hr.
    rewrite (dispatches_at _ _ _ cerf_dispatches (Cneg z) (cerf_mirror b)).
    - now apply cerf_returns_mirror.
    - now rewrite cerf_fires_mirror. }
  split; [ exact Hodd | split ].
  - intros [x y]. unfold cerfi, pnfft_creal, pnfft_cimag, Cneg, CNUM.
    cbn [fst snd].
    pose proof (Hodd (- y, x)) as H. apply ceq_same in H.
    unfold Cneg in H. cbn [fst snd] in H. destruct H as [H1 H2].
    apply ceq_same. cbn [fst snd].
    split; [ exact H2 | now apply same_opp ].
  - intros z b Hb Hex.
    rewrite (dispatches_at _ _ _ cerf_dispatches z b Hb).
    assert (Hm : cerf_mirror b = b)
      by (destruct Hex as [-> | ->]; reflexivity).
    rewrite (dispatches_at _ _ _ cerf_dispatches (Cneg z) b).
    + pose proof (cerf_returns_exact b z Hb) as H.
      destruct Hex as [-> | ->]; exact H.
    + rewrite <- Hm at 1. now rewrite cerf_fires_mirror.
Qed.

End CerfOdd.

Section RealOdd.

Context {libm : Libm} {kernel : Kernel}.

Hypothesis im_w_of_x_odd : forall x : R, im_w_of_x (- x) = - im_w_of_x x.

(** X2.  [erfi] and [dawson] are odd whenever [im_w_of_x] is: the
    value at [-x] is the negated value at [x], bit for bit, also in
    the saturated range of [erfi] and at NaN. *)
Theorem erfi_dawson_odd (x : R) :
  erfi (- x) = - erfi x /\ dawson (- x) = - dawson x.
Proof.
  unfold erfi, dawson. rewrite Rmul_opp_opp, im_w_of_x_odd, !Rmul_opp_r.
  split; [ | reflexivity ].
  destruct (D 720 <? x * x) eqn:Hs; [ | reflexivity ].
  rewrite (pos_opp x Hs). now destruct (D 0 <? x).
Qed.

End RealOdd.

Section Restrictions.

Context {libm : Libm} {kernel : Kernel}.

(** X3.  The complex functions restricted to an axis are the real
    ones: off the origin [cerf] on the imaginary axis is [i erfi(y)],
    [cerfi] on the real axis is [erfi(x)] with the argument's zero as
    imaginary part, and [cdawson] on the real axis is [dawson(x)] with
    the zero negated. *)
Theorem axis_restrictions (x y : R) :
  ((y ==? D 0) = false -> (x ==? D 0) = true ->
   cerf (CNUM x y) = CNUM x (erfi y))
  /\ ((y ==? D 0) = true -> (x ==? D 0) = false ->
      cerfi (CNUM x y) = CNUM (erfi x) y)
  /\ ((y ==? D 0) = true -> cdawson (CNUM x y) = CNUM (dawson x) (- y)).
Proof.
  split; [ | split ].
  - intros Hy Hx.
    unfold cerf, pnfft_creal, pnfft_cimag, CNUM. cbn [fst snd].
    now rewrite Hy, Hx.
  - intros Hy Hx.
    unfold cerfi, cerf, pnfft_creal, pnfft_cimag, CNUM. cbn [fst snd].
    rewrite Hx, eqb_zero_opp, Hy.
    unfold cerf_imag_axis, CNUM. cbn [fst snd].
    now rewrite Ropp_involutive.
  - intros Hy.
    unfold cdawson, pnfft_creal, pnfft_cimag, CNUM. cbn [fst snd].
    now rewrite Hy.
Qed.

End Restrictions.

(* ================================================================== *)
(** ** Further properties: erfc against erf *)
(* ================================================================== *)

Lemma ceq_RsubC (r : R) (w w' : cmplx) : ceq w w' -> ceq (r -: w) (r -: w').
Proof.
  rewrite !ceq_same. unfold RsubC. cbn [fst snd].
  intros [H1 H2]. split.
  - apply same_sub; [ apply same_refl | assumption ].
  - now apply same_opp.
Qed.

Section Complement.

Context {libm : Libm} {kernel : Kernel}.

(** X4.  Where neither function calls [w_of_z], [cerfc] is
    [1 - cerf] computed in C: the same doubles on the imaginary axis
    off the origin, equal values (the zero imaginary part differs in
    sign) in the underflow region, and the same imaginary part on the
    real axis. *)
Theorem cerfc_is_one_minus_cerf (x y : R) :
  ((x ==? D 0) = true -> (y ==? D 0) = false ->
   cerfc (CNUM x y) = D 1 -: cerf (CNUM x y))
  /\ ((x ==? D 0) = false -> (y ==? D 0) = false ->
      ((y - x) * (x + y) <? - D 750) = true ->
      ceq (cerfc (CNUM x y)) (D 1 -: cerf (CNUM x y)))
  /\ ((x ==? D 0) = false -> (y ==? D 0) = true ->
      snd (cerfc (CNUM x y)) = snd (D 1 -: cerf (CNUM x y))).
Proof.
  unfold cerfc, cerf, pnfft_creal, pnfft_cimag, CNUM. cbn [fst snd].
  split; [ | split ].
  - intros Hx Hy. rewrite Hx, Hy.
    apply eqb_zero_iff in Hx. destruct Hx as [s ->].
    unfold cerf_imag_axis, RsubC, CNUM. cbn [fst snd].
    f_equal.
    destruct (D 720 <? y * y).
    + now destruct (D 0 <? y).
    + now rewrite Rmul_opp_l.
  - intros Hx Hy Hu. rewrite Hx, Hy. cbv zeta. rewrite Hu.
    apply ceq_same. unfold CofR, RsubC. cbn [fst snd].
    split.
    + destruct (D 0 <=? x); vm_compute; apply same_refl.
    + rewrite D_zero. apply same_zero.
  - intros Hx Hy. rewrite Hx, Hy. unfold RsubC. cbn [fst snd].
    now destruct (D 750 <? x * x).
Qed.

End Complement.

Section Reflection.

Context {libm : Libm} {kernel : Kernel}.

Hypothesis im_w_of_x_odd : forall x : R, im_w_of_x (- x) = - im_w_of_x x.
Hypothesis cexp_feq :
  forall a a' b : R,
    feq a a' -> ceq (pnfft_cexp (CNUM a b)) (pnfft_cexp (CNUM a' b)).
Hypothesis Cmul_ceq :
  forall z z' w w' : cmplx,
    ceq z z' -> ceq w w' -> ceq (z :*: w) (z' :*: w').

(** An odd function sends NaN to NaN. *)
Lemma im_w_of_x_odd_nan : im_w_of_x NaN = NaN.
Proof.
  pose proof (im_w_of_x_odd NaN) as H. change (- NaN) with NaN in H.
  destruct (im_w_of_x NaN) as [s|s| |s m e]; try reflexivity;
    destruct s; discriminate H.
Qed.

(** X5.  The two formulas of [cerfc] mirror each other: for
    [x >= 0], [cerfc(-z)] is [2 - cerfc(z)] up to C's [==], given
    [im_w_of_x] odd, [cexp] blind to the sign of a zero real part and a
    product of complex values that respects [ceq]. *)
Theorem cerfc_reflection (x y : R) :
  (x >=? D 0) = true ->
  ceq (cerfc (Cneg (CNUM x y))) (D 2.0 -: cerfc (CNUM x y)).
Proof.
  intros Hge.
  unfold cerfc, Cneg, pnfft_creal, pnfft_cimag, CNUM. cbn [fst snd].
  rewrite !eqb_zero_opp.
  destruct (x ==? D 0) eqn:Hz.
  - (* imaginary axis *)
    apply ceq_same. unfold RsubC. cbn [fst snd].
    split; [ vm_compute; apply same_refl | ].
    rewrite Rmul_opp_opp.
    destruct (D 720 <? y * y) eqn:Hs.
    + assert (Hp : (D 0 <? - y) = negb (D 0 <? y)).
      { rewrite D_zero.
        destruct y as [s|s| |s m e]; try discriminate Hs;
          destruct s; reflexivity. }
      rewrite Hp. destruct (D 0 <? y); apply same_refl.
    + rewrite im_w_of_x_odd, Rmul_opp_r. apply same_refl.
  - assert (Hn : isnan x = false).
    { destruct x; try reflexivity. discriminate Hge. }
    rewrite (upper_opp x Hz Hn), Hge. cbn [negb].
    rewrite !Rmul_m2_opp_opp, !mRe_z2_ltb_opp, !Rmul_opp_opp, !Ropp_involutive.
    destruct (y ==? D 0).
    + (* real axis *)
      apply ceq_same. unfold RsubC.
      destruct (D 750 <? x * x); cbn [fst snd]; rewrite ?Ropp_involutive.
      * split; [ vm_compute | ]; apply same_refl.
      * split; apply same_refl.
    + cbv zeta. rewrite ?Rmul_m2_opp_opp, ?mRe_z2_ltb_opp.
      destruct ((y - x) * (x + y) <? - D 750).
      * apply ceq_same. unfold CofR, RsubC. cbn [fst snd].
        split; [ vm_compute; apply same_refl | ].
        rewrite D_zero. apply same_zero.
      * apply ceq_RsubC, Cmul_ceq; [ | apply ceq_refl ].
        apply cexp_feq, feq_same, mRe_z2_opp.
Qed.

End Reflection.

(* ================================================================== *)
(** ** Further properties: voigt, and the limits at infinity *)
(* ================================================================== *)

Section Symmetries.

Context {libm : Libm} {kernel : Kernel}.

(** X6.  [voigt] does not depend on the signs of [sigma] and [gamma],
    for any doubles: negative widths, negative zeros, infinities and
    NaN included. *)
Theorem voigt_sign_of_widths (x sigma gamma : R) :
  voigt x (- sigma) gamma = voigt x sigma gamma
  /\ voigt x sigma (- gamma) = voigt x sigma gamma.
Proof.
  split.
  - destruct sigma as [s|s| |s m e]; try destruct s; reflexivity.
  - destruct gamma as [s|s| |s m e]; try destruct s; reflexivity.
Qed.

(** X7.  [voigt] is even in [x] when the real part of [w_of_z] is
    even in the real part of its argument. *)
Theorem voigt_even (x sigma gamma : R) :
  (forall a b : R,
      pnfft_creal (w_of_z (CNUM (- a) b)) = pnfft_creal (w_of_z (CNUM a b))) ->
  voigt (- x) sigma gamma = voigt x sigma gamma.
Proof.
  intros Hw. unfold voigt. cbv zeta.
  rewrite eqb_zero_opp, !Rmul_opp_opp.
  unfold CdivR, CNUM, pnfft_creal in *. cbn [fst snd].
  now rewrite !Rdiv_opp_l, Hw.
Qed.

(** X8.  Limits at infinity are returned without a call of any
    external function: [cerf(+-Inf + iy)] is [+-1] and
    [cerfc(+-Inf + iy)] is 0 or 2 for finite [y] (on the real axis with
    the zero negated), [cerf(i(+-Inf))] is [i(+-Inf)],
    [cerfc(i(+-Inf))] is [1 -+ i Inf], and [erfi(+-Inf)] is [+-Inf]. *)
Theorem limits_at_infinity (s : bool) (y : R) :
  (isfinite y = true -> (y ==? D 0) = false ->
   cerf (CNUM (S754_infinity s) y)
   = CNUM (if s then - D 1 else D 1) (S754_zero false)
   /\ cerfc (CNUM (S754_infinity s) y)
      = CNUM (if s then D 2 else D 0) (S754_zero false))
  /\ ((y ==? D 0) = true ->
      cerfc (CNUM (S754_infinity s) y)
      = CNUM (if s then D 2 else D 0) (- y))
  /\ ((y ==? D 0) = true ->
      cerf (CNUM y (S754_infinity s)) = CNUM y (S754_infinity s)
      /\ cerfc (CNUM y (S754_infinity s))
         = CNUM (D 1) (S754_infinity (negb s)))
  /\ erfi (S754_infinity s) = S754_infinity s.
Proof.
  split; [ | split; [ | split ] ].
  - intros Hf Hz.
    destruct y as [t|t| |t m e]; try discriminate Hf; try discriminate Hz.
    split; destruct s, t; reflexivity.
  - intros Hz. apply eqb_zero_iff in Hz. destruct Hz as [t ->].
    destruct s, t; reflexivity.
  - intros Hz. apply eqb_zero_iff in Hz. destruct Hz as [t ->].
    split; destruct s, t; reflexivity.
  - destruct s; reflexivity.
Qed.

End Symmetries.

(* ================================================================== *)
(** ** Further properties: where a NaN goes *)
(* ================================================================== *)

Lemma abs_eqb_zero (g : R) :
  ((if g <? D 0 then - g else g) ==? D 0) = (g ==? D 0).
Proof. destruct (g <? D 0); [ apply eqb_zero_opp | reflexivity ]. Qed.

Section NaNPatterns.

Context {libm : Libm} {kernel : Kernel}.

Hypothesis exp_nan : pnfft_exp NaN = NaN.
Hypothesis erf_nan : erf NaN = NaN.
Hypothesis im_w_of_x_nan : im_w_of_x NaN = NaN.

(** X9.  [cerf] and [cerfi] treat a NaN part alike, given that [exp]
    and [erf] send NaN to NaN: the result has NaN in that part, and in
    the other part the argument's own zero if the other part is a
    zero, NaN otherwise. *)
Theorem cerf_cerfi_nan_patterns (t : R) :
  cerf (CNUM NaN t) = CNUM NaN (if t ==? D 0 then t else NaN)
  /\ cerf (CNUM t NaN) = CNUM (if t ==? D 0 then t else NaN) NaN
  /\ cerfi (CNUM NaN t) = CNUM NaN (if t ==? D 0 then t else NaN)
  /\ cerfi (CNUM t NaN) = CNUM (if t ==? D 0 then t else NaN) NaN.
Proof.
  split; [ now apply cerf_nan_real | ].
  split; [ now apply cerf_nan_imag | ].
  unfold cerfi, pnfft_creal, pnfft_cimag.
  change (snd (CNUM NaN t)) with t. change (fst (CNUM NaN t)) with NaN.
  change (snd (CNUM t NaN)) with NaN. change (fst (CNUM t NaN)) with t.
  change (- NaN) with NaN.
  rewrite (cerf_nan_imag exp_nan), (cerf_nan_real erf_nan).
  unfold CNUM. cbn [fst snd]. rewrite eqb_zero_opp.
  split; destruct (t ==? D 0); rewrite ?Ropp_involutive; reflexivity.
Qed.

(** X10.  [cdawson] with a NaN imaginary part returns [(x, NaN)] when
    [x] is a zero and [(NaN, NaN)] otherwise; with a NaN real part on
    the real axis it returns [(NaN, -y)].  Here [exp] and [im_w_of_x]
    send NaN to NaN. *)
Theorem cdawson_nan_patterns (t : R) :
  cdawson (CNUM t NaN) = CNUM (if t ==? D 0 then t else NaN) NaN
  /\ ((t ==? D 0) = true -> cdawson (CNUM NaN t) = CNUM NaN (- t)).
Proof.
  split; [ now apply cdawson_nan_imag | ].
  intros Ht. now apply cdawson_nan_real.
Qed.

(** X11.  With [exp] and [im_w_of_x] sending NaN to NaN, [erfi(NaN)]
    and [dawson(NaN)] are NaN, [cerfc] of a NaN on the imaginary axis
    is [(1, NaN)], and [cerfc] of a NaN on the real axis is
    [(NaN, -y)]. *)
Theorem real_and_cerfc_nan_patterns (t : R) :
  erfi NaN = NaN
  /\ dawson NaN = NaN
  /\ ((t ==? D 0) = true -> cerfc (CNUM t NaN) = CNUM (D 1) NaN)
  /\ ((t ==? D 0) = true -> cerfc (CNUM NaN t) = CNUM NaN (- t)).
Proof.
  split; [ now apply erfi_nan | ].
  split; [ now apply dawson_nan | ].
  split; intros Ht; [ now apply cerfc_nan_imag | now apply cerfc_nan_real ].
Qed.

(** X12.  [voigt] returns NaN for a NaN [sigma] whatever the other
    arguments are, for a NaN [gamma] when [sigma] is zero, and, given
    that [exp] sends NaN to NaN, for a NaN [x] in the Gaussian and in
    the Lorentzian return. *)
Theorem voigt_nan_patterns (x sigma gamma : R) :
  voigt x NaN gamma = NaN
  /\ ((sigma ==? D 0) = true -> voigt x sigma NaN = NaN)
  /\ ((gamma ==? D 0) = true -> (sigma ==? D 0) = false ->
      voigt NaN sigma gamma = NaN)
  /\ ((gamma ==? D 0) = false -> (sigma ==? D 0) = true ->
      voigt NaN sigma gamma = NaN).
Proof.
  split; [ apply voigt_nan_sigma | ].
  split; [ apply voigt_nan_gamma | ].
  split; intros Hg Hs;
    apply (voigt_nan_x_closed_forms exp_nan); cbv zeta;
    rewrite !abs_eqb_zero, Hg, Hs; reflexivity.
Qed.

End NaNPatterns.

(* ================================================================== *)
(** ** The further properties at concrete arguments *)
(* ================================================================== *)

Lemma first_order_erf_odd (x : R) :
  FirstOrder.erf1 (- x) = - FirstOrder.erf1 x.
Proof. unfold FirstOrder.erf1. apply Rmul_opp_r. Qed.

Lemma first_order_exp_feq (a a' : R) :
  feq a a' -> feq (FirstOrder.exp1 a) (FirstOrder.exp1 a').
Proof.
  rewrite !feq_same. intros H. unfold FirstOrder.exp1.
  apply same_add; [ apply same_refl | exact H ].
Qed.

(** [cerf] at [0.5 + 0.25 i], in the region of the mirror formula, and
    at its negation. *)
Lemma cerf_odd_witness :
  ceq (@cerf FirstOrder.libm FirstOrder.kernel
         (Cneg (CNUM (D 0.5) (D 0.25))))
      (Cneg (@cerf FirstOrder.libm FirstOrder.kernel
               (CNUM (D 0.5) (D 0.25)))).
Proof.
  apply (proj1 (@cerf_odd FirstOrder.libm FirstOrder.kernel
                  first_order_erf_odd first_order_im_w_odd
                  first_order_exp_feq first_order_Cmul_opp_l
                  first_order_Cmul_ceq)).
Defined.

(** [erfi(-30)] is [-Inf]. *)
Lemma erfi_dawson_odd_witness :
  @erfi FirstOrder.libm FirstOrder.kernel (- D 30)
  = - @erfi FirstOrder.libm FirstOrder.kernel (D 30)
  /\ @dawson FirstOrder.kernel (- D 30) = - @dawson FirstOrder.kernel (D 30).
Proof.
  apply (@erfi_dawson_odd FirstOrder.libm FirstOrder.kernel
           first_order_im_w_odd).
Defined.

(** [cerfi(2 - 0i)]. *)
Lemma axis_restrictions_witness :
  @cerfi FirstOrder.libm FirstOrder.kernel (CNUM (D 2) (S754_zero true))
  = CNUM (@erfi FirstOrder.libm FirstOrder.kernel (D 2)) (S754_zero true).
Proof.
  apply (proj1 (proj2 (@axis_restrictions FirstOrder.libm FirstOrder.kernel
                         (D 2) (S754_zero true))));
    reflexivity.
Defined.

(** [cerfc(i)] against [1 - cerf(i)]. *)
Lemma cerfc_is_one_minus_cerf_witness :
  @cerfc FirstOrder.libm FirstOrder.kernel (CNUM (D 0) (D 1))
  = D 1 -: @cerf FirstOrder.libm FirstOrder.kernel (CNUM (D 0) (D 1)).
Proof.
  apply (proj1 (@cerfc_is_one_minus_cerf FirstOrder.libm FirstOrder.kernel
                  (D 0) (D 1)));
    reflexivity.
Defined.

(** [cerfc(-1 - i)] against [2 - cerfc(1 + i)]. *)
Lemma cerfc_reflection_witness :
  ceq (@cerfc FirstOrder.libm FirstOrder.kernel (Cneg (CNUM (D 1) (D 1))))
      (D 2.0 -: @cerfc FirstOrder.libm FirstOrder.kernel (CNUM (D 1) (D 1))).
Proof.
  apply (@cerfc_reflection FirstOrder.libm FirstOrder.kernel
           first_order_im_w_odd first_order_cexp_feq first_order_Cmul_ceq).
  reflexivity.
Defined.

(** [voigt(-1, 1, 1)] and [voigt(1, 1, 1)]. *)
Lemma voigt_even_witness :
  @voigt FirstOrder.libm FirstOrder.kernel (- D 1) (D 1) (D 1)
  = @voigt FirstOrder.libm FirstOrder.kernel (D 1) (D 1) (D 1).
Proof.
  apply (@voigt_even FirstOrder.libm FirstOrder.kernel).
  intros a b. reflexivity.
Defined.

(** [cerf(Inf + i)] and [cerfc(Inf + i)]. *)
Lemma limits_at_infinity_witness :
  @cerf FirstOrder.libm FirstOrder.kernel (CNUM Inf (D 1))
  = CNUM (D 1) (S754_zero false)
  /\ @cerfc FirstOrder.libm FirstOrder.kernel (CNUM Inf (D 1))
     = CNUM (D 0) (S754_zero false).
Proof.
  apply (proj1 (@limits_at_infinity FirstOrder.libm FirstOrder.kernel
                  false (D 1)));
    reflexivity.
Defined.

(** [cerf] and [cerfi] with a NaN beside 1. *)
Lemma cerf_cerfi_nan_patterns_witness :
  @cerf FirstOrder.libm FirstOrder.kernel (CNUM NaN (D 1)) = CNUM NaN NaN
  /\ @cerf FirstOrder.libm FirstOrder.kernel (CNUM (D 1) NaN) = CNUM NaN NaN
  /\ @cerfi FirstOrder.libm FirstOrder.kernel (CNUM NaN (D 1)) = CNUM NaN NaN
  /\ @cerfi FirstOrder.libm FirstOrder.kernel (CNUM (D 1) NaN) = CNUM NaN NaN.
Proof.
  apply (@cerf_cerfi_nan_patterns FirstOrder.libm FirstOrder.kernel
           eq_refl eq_refl (D 1)).
Defined.

(** [cdawson(1 + i NaN)]. *)
Lemma cdawson_nan_patterns_witness :
  @cdawson FirstOrder.libm FirstOrder.kernel (CNUM (D 1) NaN) = CNUM NaN NaN.
Proof.
  apply (proj1 (@cdawson_nan_patterns FirstOrder.libm FirstOrder.kernel
                  eq_refl eq_refl (D 1))).
Defined.

(** [cerfc(NaN - 0i)]. *)
Lemma real_and_cerfc_nan_patterns_witness :
  @cerfc FirstOrder.libm FirstOrder.kernel (CNUM NaN (S754_zero true))
  = CNUM NaN (D 0).
Proof.
  apply (proj2 (proj2 (proj2 (@real_and_cerfc_nan_patterns
                                FirstOrder.libm FirstOrder.kernel
                                eq_refl eq_refl (S754_zero true))))).
  reflexivity.
Defined.

(** [voigt(NaN, 1, 0)], the Gaussian return. *)
Lemma voigt_nan_patterns_witness :
  @voigt FirstOrder.libm FirstOrder.kernel NaN (D 1) (D 0) = NaN.
Proof.
  apply (proj1 (proj2 (proj2 (@voigt_nan_patterns
                                FirstOrder.libm FirstOrder.kernel
                                eq_refl NaN (D 1) (D 0)))));
    reflexivity.
Defined.

(* ================================================================== *)
(** ** Further properties: the sign of voigt, and its narrow peaks *)
(* ================================================================== *)

Lemma shr_1_nonneg (mrs : shr_record) :
  (0 <= shr_m mrs)%Z -> (0 <= shr_m (shr_1 mrs))%Z.
Proof. destruct mrs as [[ |[p|p| ]|p] r s]; simpl; lia. Qed.

Lemma iter_pos_invariant {A : Type} (f : A -> A) (P : A -> Prop) :
  (forall a, P a -> P (f a)) ->
  forall (n : positive) (a : A), P a -> P (iter_pos f n a).
Proof. intros Hf. induction n; simpl; auto. Qed.

Lemma shr_fexp_nonneg (p em m e : Z) (l : location) :
  (0 <= m)%Z -> (0 <= shr_m (fst (shr_fexp p em m e l)))%Z.
Proof.
  intros Hm. unfold shr_fexp, shr.
  assert (H0 : (0 <= shr_m (shr_record_of_loc m l))%Z)
    by (destruct l as [ |[ | | ]]; exact Hm).
  destruct (fexp p em (Zdigits2 m + e) - e)%Z; try exact H0.
  cbn [fst]. apply iter_pos_invariant; [ apply shr_1_nonneg | exact H0 ].
Qed.

Lemma round_nearest_even_nonneg (m : Z) (l : location) :
  (0 <= m)%Z -> (0 <= round_nearest_even m l)%Z.
Proof.
  intros Hm. destruct l as [ |[ | | ]]; simpl; try lia.
  destruct (Z.even m); lia.
Qed.

(** Rounding a mantissa that is not negative gives a number, with the
    sign bit it was given: at any precision. *)
Lemma binary_round_aux_signed (p em : Z) (s : bool) (m e : Z) (l : location) :
  (0 <= m)%Z -> signed s (binary_round_aux p em s m e l).
Proof.
  intros Hm. unfold binary_round_aux.
  pose proof (shr_fexp_nonneg p em m e l Hm) as H1.
  destruct (shr_fexp p em m e l) as [mrs' e']. cbn [fst] in H1.
  pose proof (shr_fexp_nonneg p em _ e' loc_Exact
                (round_nearest_even_nonneg _ (loc_of_shr_record mrs') H1)) as H2.
  destruct (shr_fexp p em _ e' loc_Exact) as [mrs'' e'']. cbn [fst] in H2.
  destruct (shr_m mrs'') as [ |q|q]; [ reflexivity | | lia ].
  destruct (e'' <=? em - p)%Z; reflexivity.
Qed.

Lemma binary_round_signed (p em : Z) (s : bool) (m : positive) (e : Z) :
  signed s (binary_round p em s m e).
Proof.
  unfold binary_round. destruct (shl_align m e _) as [mz ez].
  apply binary_round_aux_signed. lia.
Qed.

Lemma signed_sign_clear (r : R) : signed false r -> sign_clear r.
Proof. destruct r; simpl; tauto. Qed.

Lemma signed_not_nan (s : bool) (x : R) : signed s x -> isnan x = false.
Proof. destruct x; simpl; tauto. Qed.

Lemma signed_nonneg (x : R) : signed false x -> (D 0 <=? x) = true.
Proof.
  destruct x as [t|t| |t m e]; simpl; try tauto; intros ->; reflexivity.
Qed.

Lemma sign_clear_not_negative (r : R) : sign_clear r -> (r <? D 0) = false.
Proof.
  rewrite D_zero. destruct r as [s|s| |s m e]; simpl; try reflexivity;
    intros ->; reflexivity.
Qed.

Lemma div_eucl_nonneg (a b : Z) :
  (0 <= a)%Z -> (0 < b)%Z -> (0 <= fst (Z.div_eucl a b))%Z.
Proof.
  intros Ha Hb. change (fst (Z.div_eucl a b)) with (a / b)%Z.
  apply Z.div_pos; assumption.
Qed.

Lemma Rmul_finite_signed (s t : bool) (m n : positive) (e f : Z) :
  signed (xorb s t) (S754_finite s m e * S754_finite t n f).
Proof. apply binary_round_aux_signed. lia. Qed.

Lemma Rdiv_finite_signed (s t : bool) (m n : positive) (e f : Z) :
  signed (xorb s t) (S754_finite s m e / S754_finite t n f).
Proof.
  unfold Rdiv, SFdiv, SFdiv_core_binary.
  match goal with
  | |- context [Z.div_eucl ?a ?b] =>
      pose proof (div_eucl_nonneg a b) as Hq;
      destruct (Z.div_eucl a b) as [q r]
  end.
  cbn [fst] in Hq. apply binary_round_aux_signed, Hq; [ | lia ].
  match goal with
  | |- (0 <= match ?s with _ => _ end)%Z => destruct s
  end; try lia.
  apply Z.shiftl_nonneg. lia.
Qed.

Lemma Radd_finite_signed (m n : positive) (e f : Z) :
  signed false (S754_finite false m e + S754_finite false n f).
Proof.
  unfold Radd, SFadd, binary_normalize, cond_Zopp.
  match goal with
  | |- context [(Z.pos ?a + Z.pos ?b)%Z] =>
      change (Z.pos a + Z.pos b)%Z with (Z.pos (a + b))
  end.
  apply binary_round_signed.
Qed.

(** A square is not negative. *)
Lemma Rmul_square (a : R) : sign_clear (a * a).
Proof.
  destruct a as [s|s| |s m e]; try (destruct s; reflexivity); try exact I.
  apply signed_sign_clear.
  replace false with (xorb s s) by apply xorb_nilpotent.
  apply Rmul_finite_signed.
Qed.

Lemma Radd_sign_clear (a b : R) :
  sign_clear a -> (b <? D 0) = false -> sign_clear (a + b).
Proof.
  rewrite D_zero.
  destruct a as [s|s| |s m e], b as [t|t| |t n f]; simpl;
    try tauto; try (intros -> _; destruct t; reflexivity);
    try (destruct t; [ discriminate | ]);
    try (intros -> _; reflexivity).
  intros -> _. apply signed_sign_clear, Radd_finite_signed.
Qed.

Lemma Rmul_not_negative (a b : R) :
  sign_clear a -> (b <? D 0) = false -> (a * b <? D 0) = false.
Proof.
  rewrite D_zero.
  destruct a as [s|s| |s m e], b as [t|t| |t n f]; simpl;
    try reflexivity; try (intros -> _; destruct t; reflexivity);
    try (destruct t; [ discriminate | ]);
    try (intros -> _; reflexivity).
  intros -> _. rewrite <- D_zero.
  apply sign_clear_not_negative, signed_sign_clear.
  apply (Rmul_finite_signed false false).
Qed.

Lemma Rdiv_not_negative (a b : R) :
  (a <? D 0) = false -> sign_clear b -> (a / b <? D 0) = false.
Proof.
  rewrite D_zero.
  destruct a as [s|s| |s m e], b as [t|t| |t n f]; simpl;
    try reflexivity; try (intros _ ->; destruct s; reflexivity);
    try (destruct s; [ discriminate | ]);
    try (intros _ ->; reflexivity).
  intros _ ->. rewrite <- D_zero.
  apply sign_clear_not_negative, signed_sign_clear.
  apply (Rdiv_finite_signed false false).
Qed.

(** [g < 0 ? -g : g] when it is not zero. *)
Lemma abs_sign_clear (g : R) :
  ((if g <? D 0 then - g else g) ==? D 0) = false ->
  sign_clear (if g <? D 0 then - g else g).
Proof.
  rewrite D_zero.
  destruct g as [s|s| |s m e]; try destruct s; simpl; intros H;
    try discriminate H; try reflexivity; exact I.
Qed.

Section VoigtSign.

Context {libm : Libm} {kernel : Kernel}.

Hypothesis exp_not_negative : forall a : R, (pnfft_exp a <? D 0) = false.
Hypothesis sqrt_2_positive : (D 0 <? pnfft_sqrt (D 2)) = true.
Hypothesis re_w_not_negative :
  forall z : cmplx,
    (pnfft_cimag z <? D 0) = false ->
    (pnfft_creal (w_of_z z) <? D 0) = false.

(** X13.  [voigt] never returns a negative number, whatever doubles
    its three arguments are, provided [exp] is never negative,
    [sqrt(2)] is positive and the real part of [w_of_z] is not negative
    at arguments whose imaginary part is not negative: the result is
    NaN, a zero, or positive. *)
Theorem voigt_never_negative (x sigma gamma : R) :
  (voigt x sigma gamma <? D 0) = false.
Proof.
  unfold voigt. cbv zeta.
  set (gam := if gamma <? D 0 then - gamma else gamma).
  set (sig := if sigma <? D 0 then - sigma else sigma).
  pose proof (abs_sign_clear gamma) as Hg. fold gam in Hg.
  pose proof (abs_sign_clear sigma) as Hs. fold sig in Hs.
  assert (Hpi : sign_clear s2pi) by reflexivity.
  destruct (gam ==? D 0) eqn:Eg; destruct (sig ==? D 0) eqn:Es;
    try specialize (Hg Eg); try specialize (Hs Es).
  - destruct (x ==? D 0); reflexivity.
  - apply Rdiv_not_negative; [ | exact Hs ].
    apply Rdiv_not_negative; [ apply exp_not_negative | exact Hpi ].
  - apply Rdiv_not_negative.
    + apply Rdiv_not_negative; [ | reflexivity ].
      apply sign_clear_not_negative. exact Hg.
    + apply Radd_sign_clear; [ apply Rmul_square | ].
      apply sign_clear_not_negative, Rmul_square.
  - apply Rdiv_not_negative; [ | exact Hs ].
    apply Rdiv_not_negative; [ | exact Hpi ].
    apply re_w_not_negative.
    unfold CdivR, CNUM, pnfft_cimag. cbn [fst snd].
    apply Rdiv_not_negative; [ | exact Hs ].
    apply Rdiv_not_negative.
    + apply sign_clear_not_negative. exact Hg.
    + rewrite D_zero in sqrt_2_positive.
      destruct (pnfft_sqrt (D 2)) as [s|s| |s m e]; try discriminate;
        destruct s; try discriminate; reflexivity.
Qed.

End VoigtSign.

Section VoigtPeak.

Context {libm : Libm} {kernel : Kernel}.

(** X14.  At [x = 0] a peak so narrow that the square of its width
    underflows to zero is not returned as a finite number: the pure
    Gaussian gives NaN (the exponent is 0/0; [exp(NaN)] is taken to be
    NaN), and the pure Lorentzian divides by zero, which gives an
    infinity or NaN. *)
Theorem voigt_narrow_peak (x sigma gamma : R) :
  (x ==? D 0) = true ->
  ((gamma ==? D 0) = true -> (sigma ==? D 0) = false ->
   (sigma * sigma ==? D 0) = true -> pnfft_exp NaN = NaN ->
   voigt x sigma gamma = NaN)
  /\ ((sigma ==? D 0) = true -> (gamma ==? D 0) = false ->
      (gamma * gamma ==? D 0) = true ->
      isfinite (voigt x sigma gamma) = false).
Proof.
  intros Hx. apply eqb_zero_iff in Hx. destruct Hx as [sx ->].
  unfold voigt. cbv zeta.
  set (gam := if gamma <? D 0 then - gamma else gamma).
  set (sig := if sigma <? D 0 then - sigma else sigma).
  assert (Hgz : (gam ==? D 0) = (gamma ==? D 0)) by apply abs_eqb_zero.
  assert (Hsz : (sig ==? D 0) = (sigma ==? D 0)) by apply abs_eqb_zero.
  assert (Hgg : gam * gam = gamma * gamma).
  { unfold gam. destruct (gamma <? D 0); [ apply Rmul_opp_opp | reflexivity ]. }
  assert (Hss : sig * sig = sigma * sigma).
  { unfold sig. destruct (sigma <? D 0); [ apply Rmul_opp_opp | reflexivity ]. }
  rewrite Hgz, Hsz, Hgg, Hss.
  split.
  - intros Hg Hs Hu Hexp. rewrite Hg, Hs.
    apply eqb_zero_iff in Hu. destruct Hu as [u ->].
    replace (- S754_zero sx * S754_zero sx / D 2 / S754_zero u) with NaN
      by (destruct sx, u; reflexivity).
    now rewrite Hexp.
  - intros Hs Hg Hu. rewrite Hg, Hs.
    pose proof (Rmul_square gamma) as Hsq.
    apply eqb_zero_iff in Hu. destruct Hu as [u Hu]. rewrite Hu in Hsq |- *.
    simpl in Hsq. subst u.
    replace (S754_zero sx * S754_zero sx + S754_zero false)
      with (S754_zero false) by (destruct sx; reflexivity).
    destruct (gam / pi) as [t|t| |t n f]; reflexivity.
Qed.

End VoigtPeak.

(* ================================================================== *)
(** ** The driver: random numbers and nodes *)
(* ================================================================== *)

Lemma double_of_int_signed (n : Z) :
  (0 <= n)%Z -> signed false (double_of_int n).
Proof.
  intros Hn. unfold double_of_int, binary_normalize.
  destruct n as [ |p|p]; [ reflexivity | apply binary_round_signed | lia ].
Qed.

Lemma float_of_double_signed (s : bool) (d : R) :
  signed s d -> signed s (float_of_double d).
Proof.
  destruct d as [t|t| |t m e]; simpl; try tauto.
  intros ->. apply binary_round_signed.
Qed.

Lemma double_of_float_signed (s : bool) (f : float32) :
  signed s f -> signed s (double_of_float f).
Proof.
  destruct f as [t|t| |t m e]; simpl; try tauto.
  intros ->. apply binary_round_signed.
Qed.

Lemma Rmul_one_signed (x : R) : signed false x -> signed false (D 1.0 * x).
Proof.
  destruct x as [t|t| |t m e]; simpl; try tauto; intros ->; try reflexivity.
  apply binary_round_aux_signed. lia.
Qed.

(** A number that is not negative, divided by a positive finite one. *)
Lemma Rdiv_signed (x y : R) :
  signed false x -> (D 0 <? y) = true -> isfinite y = true ->
  signed false (x / y).
Proof.
  intros Hx Hy Hf.
  destruct y as [u|u| |u n f]; try discriminate Hf; try discriminate Hy.
  destruct u; [ discriminate Hy | ].
  destruct x as [t|t| |t m e]; simpl in Hx; try tauto; subst t;
    try reflexivity.
  apply (Rdiv_finite_signed false false).
Qed.

(** Of two numbers, one that is not below the other is at least the
    other. *)
Lemma SFltb_false_leb (a b : R) :
  isnan a = false -> isnan b = false -> (a <? b) = false -> (b <=? a) = true.
Proof.
  intros Ha Hb H.
  destruct (b <=? a) eqn:E; [ reflexivity | ].
  rewrite (SFleb_total b a Hb Ha E) in H. discriminate H.
Qed.

Lemma store_eq {A : Type} (a : Z -> A) (k : Z) (v : A) : store a k v k = v.
Proof. unfold store. now rewrite Z.eqb_refl. Qed.

Lemma store_neq {A : Type} (a : Z -> A) (k : Z) (v : A) (i : Z) :
  i <> k -> store a k v i = a i.
Proof. unfold store. intros H. now destruct (Z.eqb_spec i k). Qed.

(** A property that every pass of a loop hands on holds when the loop
    is left. *)
Lemma for_loop_invariant {St : Type} (body : nat -> St -> option St)
  (P : nat -> St -> Prop) (count : nat) :
  forall (start : nat) (s s' : St),
    (forall (i : nat) (a a' : St),
        (start <= i < start + count)%nat ->
        P i a -> body i a = Some a' -> P (S i) a') ->
    P start s ->
    for_loop body start count s = Some s' ->
    P (start + count)%nat s'.
Proof.
  induction count as [ |count IH]; intros start s s' Hstep H0; simpl.
  - intros H. injection H as <-. now rewrite Nat.add_0_r.
  - destruct (body start s) as [s1| ] eqn:E; [ | discriminate ].
    intros H. rewrite <- Nat.add_succ_comm.
    apply (IH (S start) s1 s').
    + intros i a a' Hi. apply Hstep. lia.
    + apply (Hstep start s s1); [ lia | exact H0 | exact E ].
    + exact H.
Qed.

(** A loop whose every pass returns is left. *)
Lemma for_loop_progress {St : Type} (body : nat -> St -> option St)
  (P : nat -> St -> Prop) (count : nat) :
  forall (start : nat) (s : St),
    (forall (i : nat) (a : St),
        (start <= i < start + count)%nat ->
        P i a -> exists a' : St, body i a = Some a' /\ P (S i) a') ->
    P start s ->
    exists s' : St,
      for_loop body start count s = Some s' /\ P (start + count)%nat s'.
Proof.
  induction count as [ |count IH]; intros start s Hstep H0; simpl.
  - exists s. now rewrite Nat.add_0_r.
  - destruct (Hstep start s) as (s1 & E & H1); [ lia | exact H0 | ].
    rewrite E, <- Nat.add_succ_comm.
    apply IH; [ | exact H1 ].
    intros i a Hi. apply Hstep. lia.
Qed.

Lemma skipn_nth {A : Type} (d : A) (l : list A) :
  forall k : nat,
    (k < length l)%nat -> skipn k l = nth k l d :: skipn (S k) l.
Proof.
  induction l as [ |a l IH]; intros k Hk; simpl in Hk; [ lia | ].
  destruct k as [ |k]; [ reflexivity | ].
  simpl. apply IH. lia.
Qed.

Section RandomNumbers.

Variable RAND_MAX : Z.

Section Range.

Hypothesis RAND_MAX_positive : (D 0 <? double_of_int RAND_MAX) = true.
Hypothesis RAND_MAX_finite : isfinite (double_of_int RAND_MAX) = true.

Lemma ratio_signed (r : Z) : (0 <= r)%Z -> signed false (ratio RAND_MAX r).
Proof.
  intros Hr. apply float_of_double_signed, Rdiv_signed; try assumption.
  apply Rmul_one_signed, double_of_int_signed, Hr.
Qed.

(** X15.  What [random_number_less_than_one] returns lies in [0, 1):
    converted to [double] it is at least 0 and below 1.0, so it is no
    NaN.  Here [RAND_MAX] converts to a positive finite double and
    [rand] returns no negative value. *)
Theorem random_number_less_than_one_range (rand rand' : list Z) (v : float32) :
  Forall (fun r => (0 <= r)%Z) rand ->
  random_number_less_than_one RAND_MAX rand = Some (v, rand') ->
  (D 0 <=? double_of_float v) = true /\ (double_of_float v <? D 1.0) = true.
Proof.
  intros Hall.
  induction Hall as [ |r rand Hr Hall IH]; simpl; [ discriminate | ].
  fold (ratio RAND_MAX r).
  pose proof (double_of_float_signed _ _ (ratio_signed r Hr)) as Hs.
  destruct (D 1.0 <=? double_of_float _) eqn:E; [ exact IH | ].
  intros H. injection H as <- <-.
  split; [ apply signed_nonneg, Hs | ].
  apply SFleb_total; [ reflexivity | apply (signed_not_nan _ _ Hs) | exact E ].
Qed.

End Range.

(** X16.  [random_number_less_than_one] returns exactly when [rand]
    comes to a value that is not rejected: it takes the rejected values
    before it and that value off the list and returns that value's
    ratio to [RAND_MAX], rounded to [float]. *)
Theorem random_number_less_than_one_returns
  (rand rand' : list Z) (v : float32) :
  random_number_less_than_one RAND_MAX rand = Some (v, rand')
  <-> exists (skipped : list Z) (r : Z),
        rand = skipped ++ r :: rand'
        /\ forallb (rejected RAND_MAX) skipped = true
        /\ rejected RAND_MAX r = false
        /\ v = ratio RAND_MAX r.
Proof.
  split.
  - induction rand as [ |r0 rand IH]; simpl; [ discriminate | ].
    fold (ratio RAND_MAX r0). fold (rejected RAND_MAX r0).
    destruct (rejected RAND_MAX r0) eqn:E.
    + intros H. destruct (IH H) as (skipped & r & -> & Hs & Hr & Hv).
      exists (r0 :: skipped), r. simpl. now rewrite E, Hs.
    + intros H. injection H as <- <-.
      exists [], r0. now rewrite E.
  - intros (skipped & r & -> & Hs & Hr & ->).
    induction skipped as [ |r0 skipped IH]; simpl.
    + fold (ratio RAND_MAX r). fold (rejected RAND_MAX r). now rewrite Hr.
    + simpl in Hs. apply andb_prop in Hs. destruct Hs as [H0 Hs].
      fold (ratio RAND_MAX r0). fold (rejected RAND_MAX r0).
      rewrite H0. now apply IH.
Qed.

(** A call takes values off the front of the list. *)
Lemma random_number_less_than_one_shorter (rand rand' : list Z) (v : float32) :
  random_number_less_than_one RAND_MAX rand = Some (v, rand') ->
  exists used : list Z, rand = used ++ rand'.
Proof.
  induction rand as [ |r0 rand IH]; simpl; [ discriminate | ].
  destruct (D 1.0 <=? double_of_float _).
  - intros H. destruct (IH H) as (used & ->). now exists (r0 :: used).
  - intros H. injection H as _ <-. now exists [r0].
Qed.

Lemma init_random_x_draw_accepts (lo up x_max : float32) (fuel : nat) :
  forall (rand rand' : list Z) (c : float32),
    init_random_x_draw RAND_MAX lo up x_max fuel rand = Some (c, rand') ->
    out_of_range x_max c = false /\ exists used, rand = used ++ rand'.
Proof.
  induction fuel as [ |fuel IH]; intros rand rand' c; simpl; [ discriminate | ].
  destruct (random_number_less_than_one RAND_MAX rand) as [[tmp rand1]| ] eqn:E;
    [ | discriminate ].
  apply random_number_less_than_one_shorter in E.
  destruct E as (used & ->).
  fold (out_of_range x_max (Fadd (Fmul (Fsub up lo) tmp) lo)).
  destruct (out_of_range x_max _) eqn:Ho.
  - intros H. destruct (IH _ _ _ H) as (Hc & used' & ->).
    split; [ exact Hc | ]. exists (used ++ used'). now rewrite app_assoc.
  - intros H. injection H as <- <-. split; [ exact Ho | now exists used ].
Qed.

Lemma init_random_x_body_written (lo up x_max : nat -> float32)
  (rand0 : list Z) (x0 : Z -> float32) (j t : nat)
  (s s' : list Z * (Z -> float32)) :
  (t < 3)%nat ->
  written x_max rand0 x0 (3 * j + t) s ->
  init_random_x_body RAND_MAX lo up x_max j t s = Some s' ->
  written x_max rand0 x0 (S (3 * j + t)) s'.
Proof.
  intros Ht (Hin & Hout & used & Hused). destruct s as [rand x].
  unfold init_random_x_body.
  destruct (init_random_x_draw _ _ _ _ _ rand) as [[c rand1]| ] eqn:E;
    [ | discriminate ].
  apply init_random_x_draw_accepts in E. destruct E as (Hc & used' & E).
  remember (3 * Z.of_nat j + Z.of_nat t)%Z as k eqn:Hk.
  intros [= <-]. unfold written. cbn [fst snd] in Hin, Hout, Hused |- *.
  split; [ | split ].
  - intros j' t' Ht' Hlt.
    destruct (Z.eq_dec (3 * Z.of_nat j' + Z.of_nat t') k) as [Heq|Hne].
    + assert (t' = t) by lia. subst t'. now rewrite Heq, store_eq.
    + rewrite store_neq by exact Hne. apply Hin; [ exact Ht' | lia ].
  - intros i Hi. rewrite store_neq by lia. apply Hout. lia.
  - exists (used ++ used'). subst rand0 rand. now rewrite app_assoc.
Qed.

Lemma init_random_x_written (lo up x_max : nat -> float32) (M : Z)
  (rand : list Z) (x : Z -> float32) (s' : list Z * (Z -> float32)) :
  init_random_x RAND_MAX lo up x_max M (rand, x) = Some s' ->
  written x_max rand x (3 * Z.to_nat M) s'.
Proof.
  unfold init_random_x. intros H.
  apply (for_loop_invariant _ (fun j => written x_max rand x (3 * j))
           (Z.to_nat M) 0 (rand, x) s') in H.
  - exact H.
  - intros j a a' _ Ha Hb.
    apply (for_loop_invariant _
             (fun t => written x_max rand x (3 * j + t)) 3 0 a a') in Hb.
    + replace (3 * S j)%nat with (3 * j + (0 + 3))%nat by lia. exact Hb.
    + intros t b b' Hlt Hw Hbody.
      rewrite Nat.add_succ_r.
      apply (init_random_x_body_written lo up x_max rand x j t b b');
        [ lia | exact Hw | exact Hbody ].
    + now rewrite Nat.add_0_r.
  - split; [ | split ].
    + intros j t _ Hlt. lia.
    + reflexivity.
    + now exists [].
Qed.

(** X17.  When [init_random_x] returns, every coordinate [x[3j+t]] with
    [0 <= j < M] has passed the test of the loop: it is not below
    [-x_max[t]] and [x_max[t]] is not at most it, so it lies in
    [[-x_max[t], x_max[t])] unless it or [x_max[t]] is NaN.  No other
    entry of [x] is written, and the values of [rand] are taken from
    the front of the list. *)
Theorem init_random_x_in_range (lo up x_max : nat -> float32) (M : Z)
  (rand rand' : list Z) (x x' : Z -> float32) :
  init_random_x RAND_MAX lo up x_max M (rand, x) = Some (rand', x') ->
  (forall j t : nat,
      (Z.of_nat j < M)%Z -> (t < 3)%nat ->
      let c := x' (3 * Z.of_nat j + Z.of_nat t)%Z in
      (c <? - x_max t) = false
      /\ (x_max t <=? c) = false
      /\ (isnan c = false -> isnan (x_max t) = false ->
          (- x_max t <=? c) = true /\ (c <? x_max t) = true))
  /\ (forall i : Z, (i < 0 \/ 3 * M <= i)%Z -> x' i = x i)
  /\ exists used : list Z, rand = used ++ rand'.
Proof.
  intros H. apply init_random_x_written in H.
  destruct H as (Hin & Hout & Hused). cbn [fst snd] in Hin, Hout, Hused.
  split; [ | split ].
  - intros j t Hj Ht c.
    assert (Hc : out_of_range (x_max t) c = false) by (apply Hin; lia).
    unfold out_of_range in Hc. apply orb_false_elim in Hc.
    destruct Hc as [H1 H2].
    split; [ exact H1 | split; [ exact H2 | ] ].
    intros Hn Hx. split.
    + apply SFltb_false_leb; [ exact Hn | now rewrite isnan_opp | exact H1 ].
    + apply SFleb_total; [ exact Hx | exact Hn | exact H2 ].
  - intros i Hi. apply Hout. lia.
  - exact Hused.
Qed.

(** One pass of the [do ... while] on a value that passes both
    tests. *)
Lemma init_random_x_draw_first (lo up x_max : float32) (fuel : nat)
  (r : Z) (rand' : list Z) :
  rejected RAND_MAX r = false ->
  out_of_range x_max (scaled lo up (ratio RAND_MAX r)) = false ->
  init_random_x_draw RAND_MAX lo up x_max (S fuel) (r :: rand')
  = Some (scaled lo up (ratio RAND_MAX r), rand').
Proof.
  intros Hr Ho.
  cbn [init_random_x_draw random_number_less_than_one].
  fold (ratio RAND_MAX r). fold (rejected RAND_MAX r). rewrite Hr.
  fold (scaled lo up (ratio RAND_MAX r)).
  fold (out_of_range x_max (scaled lo up (ratio RAND_MAX r))).
  now rewrite Ho.
Qed.

(** X18.  The [do ... while] of [init_random_x] is left at the first
    value of [rand] that passes both tests, the one of
    [random_number_less_than_one] and the one on the range: the values
    before it fail one of the two, and more passes than there are such
    values are fuel enough. *)
Theorem init_random_x_draw_returns (lo up x_max : float32)
  (skipped : list Z) (r : Z) (rand' : list Z) (fuel : nat) :
  Forall (fun r0 =>
            rejected RAND_MAX r0 = true
            \/ out_of_range x_max (scaled lo up (ratio RAND_MAX r0)) = true)
         skipped ->
  rejected RAND_MAX r = false ->
  out_of_range x_max (scaled lo up (ratio RAND_MAX r)) = false ->
  (length skipped < fuel)%nat ->
  init_random_x_draw RAND_MAX lo up x_max fuel (skipped ++ r :: rand')
  = Some (scaled lo up (ratio RAND_MAX r), rand').
Proof.
  intros Hs Hr Ho. revert fuel.
  induction Hs as [ |r0 skipped H0 Hs IH]; intros fuel Hf;
    (destruct fuel as [ |fuel]; [ simpl in Hf; lia | ]).
  - now apply init_random_x_draw_first.
  - specialize (IH (S fuel)) as IH1.
    cbn [app init_random_x_draw random_number_less_than_one] in IH1 |- *.
    fold (ratio RAND_MAX r0). fold (rejected RAND_MAX r0).
    destruct (rejected RAND_MAX r0) eqn:E0.
    + apply IH1. simpl in Hf. lia.
    + destruct H0 as [H0|H0]; [ discriminate H0 | ].
      fold (scaled lo up (ratio RAND_MAX r0)).
      fold (out_of_range x_max (scaled lo up (ratio RAND_MAX r0))).
      rewrite H0. apply IH. simpl in Hf. lia.
Qed.

(** X19.  When no value of [rand] fails a test and the list holds [3M]
    values, [init_random_x] returns, it uses one value for each
    coordinate, and the coordinates take the values in the order of
    the array: [x[3j+t]] is the [(3j+t)]-th value, scaled to
    [[lo[t], up[t]]]. *)
Theorem init_random_x_without_rejection (lo up x_max : nat -> float32)
  (M : Z) (rand : list Z) (x : Z -> float32) :
  (forall (r : Z) (t : nat),
      In r rand -> (t < 3)%nat ->
      rejected RAND_MAX r = false
      /\ out_of_range (x_max t) (scaled (lo t) (up t) (ratio RAND_MAX r))
         = false) ->
  (3 * Z.to_nat M <= length rand)%nat ->
  exists x' : Z -> float32,
    init_random_x RAND_MAX lo up x_max M (rand, x)
    = Some (skipn (3 * Z.to_nat M) rand, x')
    /\ forall j t : nat,
         (Z.of_nat j < M)%Z -> (t < 3)%nat ->
         x' (3 * Z.of_nat j + Z.of_nat t)%Z
         = scaled (lo t) (up t) (ratio RAND_MAX (nth (3 * j + t) rand 0%Z)).
Proof.
  intros Hok Hlen.
  set (P := fun (k : nat) (s : list Z * (Z -> float32)) =>
              fst s = skipn k rand
              /\ forall j t : nat,
                   (t < 3)%nat -> (3 * j + t < k)%nat ->
                   snd s (3 * Z.of_nat j + Z.of_nat t)%Z
                   = scaled (lo t) (up t)
                            (ratio RAND_MAX (nth (3 * j + t) rand 0%Z))).
  assert (Hbody : forall (j t : nat) (a : list Z * (Z -> float32)),
             (j < Z.to_nat M)%nat -> (t < 3)%nat -> P (3 * j + t)%nat a ->
             exists a', init_random_x_body RAND_MAX lo up x_max j t a = Some a'
                        /\ P (S (3 * j + t)) a').
  { intros j t [rand1 x1] Hj Ht [Hr Hx]. cbn [fst snd] in Hr, Hx.
    assert (Hk : (3 * j + t < length rand)%nat) by lia.
    rewrite (skipn_nth 0%Z rand _ Hk) in Hr. subst rand1.
    destruct (Hok (nth (3 * j + t) rand 0%Z) t (nth_In _ _ Hk) Ht) as [H1 H2].
    unfold init_random_x_body. cbn [length].
    rewrite (init_random_x_draw_first (lo t) (up t) (x_max t) _ _ _ H1 H2).
    eexists. split; [ reflexivity | ].
    remember (3 * Z.of_nat j + Z.of_nat t)%Z as k eqn:Ek.
    split; cbn [fst snd]; [ reflexivity | ].
    intros j' t' Ht' Hlt.
    destruct (Z.eq_dec (3 * Z.of_nat j' + Z.of_nat t') k) as [Heq|Hne].
    - assert (t' = t) by lia. subst t'. assert (j' = j) by lia. subst j'.
      now rewrite Heq, store_eq.
    - rewrite store_neq by exact Hne. apply Hx; [ exact Ht' | lia ]. }
  destruct (for_loop_progress
              (fun j => for_loop (init_random_x_body RAND_MAX lo up x_max j) 0 3)
              (fun j => P (3 * j)%nat) (Z.to_nat M) 0 (rand, x))
    as ([rand' x'] & E & Hr & Hx).
  - intros j a Hj Ha.
    destruct (for_loop_progress (init_random_x_body RAND_MAX lo up x_max j)
                (fun t => P (3 * j + t)%nat) 3 0 a) as (a' & E & Ha').
    + intros t b Ht Hb. cbv beta. rewrite Nat.add_succ_r.
      apply Hbody; [ lia | lia | exact Hb ].
    + now rewrite Nat.add_0_r.
    + exists a'. split; [ exact E | ].
      replace (3 * S j)%nat with (3 * j + (0 + 3))%nat by lia. exact Ha'.
  - split; [ reflexivity | ]. intros j t _ Hlt. lia.
  - cbn [fst snd] in Hr, Hx. exists x'. unfold init_random_x.
    rewrite E, Hr. split; [ reflexivity | ].
    intros j t Hj Ht. apply Hx; [ exact Ht | lia ].
Qed.

End RandomNumbers.

(* ================================================================== *)
(** ** The driver: the error that is reported *)
(* ================================================================== *)

Lemma SFleb_refl (a : R) : isnan a = false -> (a <=? a) = true.
Proof.
  unfold SFleb, SFcompare.
  destruct a as [s|s| |s m e]; try discriminate; intros _;
    try (destruct s; reflexivity).
  change (Pos.compare_cont Eq m m) with (Pos.compare m m).
  rewrite Z.compare_refl, Pos.compare_refl. destruct s; reflexivity.
Qed.

Lemma SFltb_leb (a b : R) : (a <? b) = true -> (a <=? b) = true.
Proof.
  unfold SFltb, SFleb. destruct (SFcompare a b) as [[ | | ]|]; congruence.
Qed.

Lemma SFleb_trans (a b c : R) :
  (a <=? b) = true -> (b <=? c) = true -> (a <=? c) = true.
Proof.
  unfold SFleb, SFcompare.
  destruct a as [s|s| |s m e], b as [t|t| |t n f], c as [u|u| |u p g];
    try discriminate; try reflexivity;
    try (destruct s; try discriminate; try reflexivity);
    try (destruct t; try discriminate; try reflexivity);
    try (destruct u; try discriminate; try reflexivity);
    change (Pos.compare_cont Eq m n) with (Pos.compare m n);
    change (Pos.compare_cont Eq n p) with (Pos.compare n p);
    change (Pos.compare_cont Eq m p) with (Pos.compare m p);
    destruct (Z.compare_spec e f), (Z.compare_spec f g), (Z.compare_spec e g);
    try lia; try discriminate; try reflexivity;
    destruct (Pos.compare_spec m n), (Pos.compare_spec n p),
      (Pos.compare_spec m p);
    try lia; try discriminate; try reflexivity.
Qed.

(** Only numbers compare. *)
Lemma SFltb_numbers (a b : R) :
  (a <? b) = true -> isnan a = false /\ isnan b = false.
Proof.
  destruct a as [s|s| |s m e], b as [t|t| |t n f];
    try discriminate; now split.
Qed.

Section CompareF.

Variable cabsf : cmplxf -> float32.

Lemma compare_f_loop_max (f_pnfft f_nfft : Z -> cmplxf) (count : nat) :
  forall (j : Z) (e0 : float32),
    isnan e0 = false ->
    let d := fun i => cabsf (Csubf (f_pnfft i) (f_nfft i)) in
    let e := compare_f_loop cabsf f_pnfft f_nfft j count e0 in
    isnan e = false
    /\ (e0 <=? e) = true
    /\ (forall i : Z, (j <= i < j + Z.of_nat count)%Z ->
                      isnan (d i) = false -> (d i <=? e) = true)
    /\ (e = e0
        \/ exists i : Z,
             (j <= i < j + Z.of_nat count)%Z
             /\ (e0 <? d i) = true /\ e = d i).
Proof.
  induction count as [ |count IH]; intros j e0 He0 d.
  - simpl. split; [ exact He0 | ]. split; [ now apply SFleb_refl | ].
    split; [ intros i Hi; lia | now left ].
  - cbn [compare_f_loop]. fold (d j).
    set (e1 := if e0 <? d j then d j else e0).
    assert (He1 : isnan e1 = false).
    { unfold e1. destruct (e0 <? d j) eqn:E; [ | exact He0 ].
      exact (proj2 (SFltb_numbers _ _ E)). }
    assert (H01 : (e0 <=? e1) = true).
    { unfold e1. destruct (e0 <? d j) eqn:E;
        [ now apply SFltb_leb | now apply SFleb_refl ]. }
    destruct (IH (j + 1)%Z e1 He1) as (Hn & Hle & Hmax & Hatt).
    fold d in Hmax, Hatt.
    set (e := compare_f_loop cabsf f_pnfft f_nfft (j + 1) count e1) in *.
    split; [ exact Hn | ].
    split; [ exact (SFleb_trans _ _ _ H01 Hle) | ].
    split.
    + intros i Hi Hd.
      destruct (Z.eq_dec i j) as [->|Hne].
      * apply (SFleb_trans _ e1); [ | exact Hle ].
        unfold e1. destruct (e0 <? d j) eqn:E.
        -- now apply SFleb_refl.
        -- now apply SFltb_false_leb.
      * apply Hmax; [ lia | exact Hd ].
    + destruct Hatt as [Heq|(i & Hi & Hlt & Heq)].
      * unfold e1 in Heq. destruct (e0 <? d j) eqn:E.
        -- right. exists j. split; [ lia | now split ].
        -- now left.
      * right. exists i. split; [ lia | ]. split; [ | exact Heq ].
        destruct (e0 <? d i) eqn:E; [ reflexivity | ].
        pose proof (proj2 (SFltb_numbers _ _ Hlt)) as Hdi.
        pose proof (SFltb_false_leb _ _ He0 Hdi E) as H1.
        pose proof (SFleb_trans _ _ _ H1 H01) as H2.
        now rewrite (SFleb_not_ltb _ _ H2) in Hlt.
Qed.

(** X20.  The error of [compare_f] is the largest of the magnitudes
    [cabsf(f_pnfft[j] - f_nfft[j])] that are numbers: it is never NaN
    and never below 0, no magnitude that is a number exceeds it, and it
    is +0 or one of the magnitudes, a positive one.  This holds for
    every [cabsf] and every [local_M]. *)
Theorem compare_f_is_largest_number
  (f_pnfft f_nfft : Z -> cmplxf) (local_M : Z) :
  let d := fun j => cabsf (Csubf (f_pnfft j) (f_nfft j)) in
  let e := compare_f cabsf f_pnfft f_nfft local_M in
  isnan e = false
  /\ (S754_zero false <=? e) = true
  /\ (forall j : Z, (0 <= j < local_M)%Z ->
                    isnan (d j) = false -> (d j <=? e) = true)
  /\ (e = S754_zero false
      \/ exists j : Z, (0 <= j < local_M)%Z /\ (D 0 <? d j) = true /\ e = d j).
Proof.
  intros d e.
  destruct (compare_f_loop_max f_pnfft f_nfft (Z.to_nat local_M) 0
              (S754_zero false) eq_refl) as (Hn & Hle & Hmax & Hatt).
  fold d in Hmax, Hatt. fold (compare_f cabsf f_pnfft f_nfft local_M) in *.
  fold e in Hn, Hle, Hmax, Hatt.
  split; [ exact Hn | ]. split; [ exact Hle | ]. split.
  - intros j Hj. apply Hmax. lia.
  - destruct Hatt as [Heq|(j & Hj & Hlt & Heq)]; [ now left | ].
    right. exists j. split; [ lia | now split ].
Qed.

(** X21.  Magnitudes that are NaN leave no trace: when no magnitude
    tests greater than 0, as when every one is NaN, the error of
    [compare_f] is +0. *)
Theorem compare_f_drops_nan (f_pnfft f_nfft : Z -> cmplxf) (local_M : Z) :
  (forall j : Z, (0 <= j < local_M)%Z ->
                 (cabsf (Csubf (f_pnfft j) (f_nfft j)) >? D 0) = false) ->
  compare_f cabsf f_pnfft f_nfft local_M = S754_zero false.
Proof.
  intros Hall.
  destruct (compare_f_loop_max f_pnfft f_nfft (Z.to_nat local_M) 0
              (S754_zero false) eq_refl) as (_ & _ & _ & Hatt).
  destruct Hatt as [Heq|(j & Hj & Hlt & _)]; [ exact Heq | ].
  rewrite <- D_zero in Hlt. rewrite Hall in Hlt by lia. discriminate Hlt.
Qed.

End CompareF.

(* ================================================================== *)
(** ** These properties at concrete arguments *)
(* ================================================================== *)

Lemma positive_exp_not_negative (a : R) : (Positive.exp2 a <? D 0) = false.
Proof. apply sign_clear_not_negative, Rmul_square. Qed.

Lemma positive_re_w_not_negative (z : cmplx) :
  (pnfft_cimag z <? D 0) = false ->
  (pnfft_creal (Positive.w_pade z) <? D 0) = false.
Proof.
  intros Hz. unfold Positive.w_pade, pnfft_creal, CNUM. cbn [fst].
  apply Rdiv_not_negative; [ reflexivity | ].
  apply Radd_sign_clear; [ reflexivity | ].
  apply Rmul_not_negative; [ reflexivity | exact Hz ].
Qed.

(** [voigt(1, 1, 1)], the regular case. *)
Lemma voigt_never_negative_witness :
  (@voigt Positive.libm Positive.kernel (D 1) (D 1) (D 1) <? D 0) = false.
Proof.
  apply (@voigt_never_negative Positive.libm Positive.kernel
           positive_exp_not_negative eq_refl positive_re_w_not_negative).
Defined.

(** A Gaussian of width 1e-170 at its peak. *)
Lemma voigt_narrow_peak_witness :
  @voigt FirstOrder.libm FirstOrder.kernel (D 0) (D 1e-170) (D 0) = NaN.
Proof.
  apply (proj1 (@voigt_narrow_peak FirstOrder.libm FirstOrder.kernel
                  (D 0) (D 1e-170) (D 0) eq_refl));
    reflexivity.
Defined.

(** [rand] returns [RAND_MAX - 1], which is rejected, and then 5. *)
Lemma random_number_less_than_one_range_witness :
  (D 0 <=? double_of_float (ratio Run.RAND_MAX 5)) = true
  /\ (double_of_float (ratio Run.RAND_MAX 5) <? D 1.0) = true.
Proof.
  apply (random_number_less_than_one_range Run.RAND_MAX eq_refl eq_refl
           [2147483646; 5]%Z []).
  - repeat constructor; lia.
  - vm_compute. reflexivity.
Defined.

(** One coordinate in [-1/2, 1/2) with [x_max = 1/4]: the values
    [RAND_MAX - 1] and 5 are passed over, the first for its ratio and
    the second for its coordinate, close to -1/2. *)
Lemma init_random_x_in_range_witness :
  exists (rand' : list Z) (x' : Z -> float32),
    init_random_x Run.RAND_MAX (Run.all3 (- Run.half)) (Run.all3 Run.half)
      (Run.all3 Run.quarter) 1
      ([2147483646; 5; 1073741824; 1073741824; 1073741824; 9]%Z,
       fun _ => NaN)
    = Some (rand', x')
    /\ (x' 1%Z <? - Run.quarter) = false
    /\ (Run.quarter <=? x' 1%Z) = false.
Proof.
  destruct (init_random_x Run.RAND_MAX (Run.all3 (- Run.half))
              (Run.all3 Run.half) (Run.all3 Run.quarter) 1
              ([2147483646; 5; 1073741824; 1073741824; 1073741824; 9]%Z,
               fun _ => NaN))
    as [[rand' x']| ] eqn:E; [ | vm_compute in E; discriminate E ].
  exists rand', x'. split; [ reflexivity | ].
  destruct (proj1 (init_random_x_in_range _ _ _ _ _ _ _ _ _ E) 0%nat 1%nat)
    as (H1 & H2 & _); [ lia | lia | ].
  split; [ exact H1 | exact H2 ].
Defined.

(** The same values of [rand], for the loop alone: two passes fail, the
    third returns 0. *)
Lemma init_random_x_draw_returns_witness :
  init_random_x_draw Run.RAND_MAX (- Run.half) Run.half Run.quarter 4
    ([2147483646; 5] ++ 1073741824 :: [7])%Z
  = Some (scaled (- Run.half) Run.half (ratio Run.RAND_MAX 1073741824), [7]%Z).
Proof.
  apply init_random_x_draw_returns.
  - constructor; [ left; reflexivity | ].
    constructor; [ right; reflexivity | constructor ].
  - reflexivity.
  - reflexivity.
  - simpl. lia.
Defined.

(** Two nodes in [-1/2, 1/2) with [x_max = 1/2]. *)
Lemma init_random_x_without_rejection_witness :
  exists x' : Z -> float32,
    init_random_x Run.RAND_MAX (Run.all3 (- Run.half)) (Run.all3 Run.half)
      (Run.all3 Run.half) 2
      ([1; 1000000000; 2000000000; 3; 4; 5]%Z, fun _ => NaN)
    = Some ([], x')
    /\ x' 4%Z
       = scaled (- Run.half) Run.half (ratio Run.RAND_MAX 4).
Proof.
  destruct (init_random_x_without_rejection Run.RAND_MAX
              (Run.all3 (- Run.half)) (Run.all3 Run.half) (Run.all3 Run.half)
              2 [1; 1000000000; 2000000000; 3; 4; 5]%Z (fun _ => NaN))
    as (x' & E & Hx).
  - intros r t Hin _. simpl in Hin.
    repeat (destruct Hin as [<-|Hin]; [ split; reflexivity | ]).
    destruct Hin.
  - simpl. lia.
  - exists x'. split; [ exact E | ].
    apply (Hx 1%nat 1%nat); lia.
Defined.

(** Four differences that are all NaN. *)
Lemma compare_f_drops_nan_witness :
  compare_f Run.cabsf1 (fun _ => (NaN, NaN))
            (fun _ => (S754_zero false, S754_zero false)) 4
  = S754_zero false.
Proof.
  apply compare_f_drops_nan. intros j _. reflexivity.
Defined.
